(** * deck: the image pipeline of preload.go

    A shallow embedding of [preloadCurrentImages], [startUploadingImages]
    and [cleanupUploadedImages].  The three functions start goroutines that
    meet at a weighted semaphore, an errgroup and a buffered channel.  Each
    stage is embedded as an executable step function: a schedule (the list
    of events chosen by the Go scheduler and by the environment: which
    goroutine moves next, what the network answered) is run against the
    state of the stage.  A property of "every execution" is a property of
    every schedule the step function accepts. *)

From stdpp Require Import gmap strings list fin_maps.
From Stdlib Require Import Strings.Byte.

Set Warnings "-clear-no-such-hyp".

(** ** Basic data *)

(** [const maxPreloadWorkersNum = 4] (preload.go:15). *)
Definition maxPreloadWorkersNum : nat := 4.

(** A [*Image] is an address in the store of image objects; [nil] is
    [None] where the code can hold it. *)
Abbreviation ptr := nat (only parsing).

(** A Go [error] value is represented by its message. *)
Abbreviation error := string (only parsing).

#[global] Instance byte_eq_dec : EqDecision byte := Byte.byte_eq_dec.

(** Modelled from the spec: the upload state machine of an Image (image.go
    is not part of the sources): NotNeeded is terminal, and
    Needed -> Uploading -> Uploaded or Failed. *)
Inductive uploadState :=
  | NotNeeded
  | Needed
  | Uploading
  | Uploaded
  | Failed.

#[global] Instance uploadState_eq_dec : EqDecision uploadState.
Proof. solve_decision. Defined.

(** Modelled from the spec: the Image entity of the data model,
    {bytes, mimeType, sourceLink, externalLink, uploadState, uploadedURL,
    uploadError}.  [mimeType] and [link] are the two fields preload.go
    reads and writes directly. *)
Record Image := mkImage {
  bytes : list byte;
  mimeType : string;
  sourceLink : string;
  link : string;
  state : uploadState;
  uploadedURL : string;
  uploadError : option error
}.

(** The store of image objects that the pointers of a batch refer to. *)
Abbreviation store := (gmap nat Image) (only parsing).

(** Modelled from the spec: the "needs upload" predicate of an Image. *)
Definition IsUploadNeeded (h : store) (p : ptr) : bool :=
  match h !! p with
  | Some i => bool_decide (state i = Needed)
  | None => false
  end.

(** Modelled from the spec: claim-for-upload, the Needed -> Uploading
    transition.  The object is changed in place, so every alias of [p]
    sees the new state. *)
Definition StartUpload (p : ptr) (h : store) : store :=
  match h !! p with
  | Some i =>
      if bool_decide (state i = Needed)
      then <[p := mkImage (bytes i) (mimeType i) (sourceLink i) (link i)
                          Uploading (uploadedURL i) (uploadError i)]> h
      else h
  | None => h
  end.

(** Modelled from the spec: record-upload-outcome, Uploading -> Uploaded
    with the public URL when [err] is nil, Uploading -> Failed with the
    error otherwise. *)
Definition SetUploadResult (p : ptr) (url : string) (err : option error)
    (h : store) : store :=
  match h !! p with
  | Some i =>
      if bool_decide (state i = Uploading)
      then <[p := mkImage (bytes i) (mimeType i) (sourceLink i) (link i)
                          (match err with Some _ => Failed | None => Uploaded end)
                          url err]> h
      else h
  | None => h
  end.

(** Modelled from the spec: content equivalence of two image values, a
    comparison of what the images hold and not of their addresses.  The
    selection below takes the comparison as an argument; this one is used
    where a concrete comparison is needed. *)
Definition contentEquivalent (h : store) (a : option ptr) (b : ptr) : bool :=
  match a with
  | Some p =>
      match h !! p, h !! b with
      | Some i, Some j =>
          bool_decide (bytes i = bytes j) && bool_decide (mimeType i = mimeType j)
      | _, _ => false
      end
  | None => false
  end.

(** The state of an image once its upload has been attempted. *)
Definition terminal (h : store) (p : ptr) : bool :=
  match h !! p with
  | Some i => bool_decide (state i = Uploaded) || bool_decide (state i = Failed)
  | None => false
  end.

Definition stateOf (h : store) (p : ptr) : option uploadState :=
  state <$> h !! p.

(** Modelled from the spec: a Slide Action {index, kind, slide}; the kinds
    other than update and append are not told apart by preload.go. *)
Inductive actionKind :=
  | actionTypeAppend
  | actionTypeUpdate
  | actionTypeOther.

#[global] Instance actionKind_eq_dec : EqDecision actionKind.
Proof. solve_decision. Defined.

(** The desired content of a slide: only its images matter here. *)
Record Slide := mkSlide { Images : list ptr }.

Record action := mkAction {
  actionType : actionKind;
  index : Z;
  slide : option Slide
}.

(** [currentImageData] (preload.go:18-21).  [currentImages] is a
    [[]*Image]: a slot is [None] where the slice holds nil. *)
Record currentImageData := mkCurrent {
  currentImages : list (option ptr);
  currentImageObjectIDMap : gmap nat string
}.

(** [uploadedImageInfo] (uploader.go). *)
Record uploadedImageInfo := mkInfo {
  resourceID : string;
  image : ptr
}.

#[global] Instance uploadedImageInfo_eq_dec : EqDecision uploadedImageInfo.
Proof. solve_decision. Defined.

(** ** The semaphore and the channel *)

(** [semaphore.NewWeighted(n)] with every acquisition of weight 1: the
    number of permits handed out.  [Acquire] returns nil only while fewer
    than [n] permits are out. *)
Definition semTryAcquire (cur : nat) : option nat :=
  if decide (cur < maxPreloadWorkersNum) then Some (S cur) else None.

Definition semRelease (cur : nat) : nat := pred cur.

(** A buffered channel: capacity, queued values, closed flag. *)
Record chan (A : Type) := mkChan {
  chanCap : nat;
  chanBuf : list A;
  chanClosed : bool
}.
Arguments mkChan {A} _ _ _.
Arguments chanCap {A} _.
Arguments chanBuf {A} _.
Arguments chanClosed {A} _.

(** [make(chan A, n)]. *)
Definition makeChan {A} (n : nat) : chan A := mkChan n [] false.

(** [ch <- x]: [None] when the send cannot proceed now (the buffer is
    full) or must not happen (the channel is closed, where Go panics). *)
Definition chanSend {A} (x : A) (c : chan A) : option (chan A) :=
  if chanClosed c then None
  else if decide (length (chanBuf c) < chanCap c)
       then Some (mkChan (chanCap c) (chanBuf c ++ [x]) false)
       else None.

(** [close(ch)]. *)
Definition chanClose {A} (c : chan A) : option (chan A) :=
  if chanClosed c then None else Some (mkChan (chanCap c) (chanBuf c) true).

(** [x, ok := <-ch]. *)
Inductive recvResult (A : Type) :=
  | RecvValue (x : A) (c : chan A)
  | RecvClosed
  | RecvBlocked.
Arguments RecvValue {A} _ _.
Arguments RecvClosed {A}.
Arguments RecvBlocked {A}.

Definition chanRecv {A} (c : chan A) : recvResult A :=
  match chanBuf c with
  | x :: rest => RecvValue x (mkChan (chanCap c) rest (chanClosed c))
  | [] => if chanClosed c then RecvClosed else RecvBlocked
  end.

(** [for x := range ch] on a channel nobody sends on any more: the values
    received before the loop ends, or [None] if the loop would block. *)
Definition rangeChan {A} (c : chan A) : option (list A) :=
  if chanClosed c then Some (chanBuf c) else None.

(** The first error wins in an errgroup. *)
Definition egRecord (old : option error) (e : error) : option error :=
  match old with
  | Some _ => old
  | None => Some e
  end.

(** ** The upload dispatcher: [startUploadingImages] (preload.go:153-233) *)

Section Selection.

(** [currentImage.Equivalent(image)]: image.go is not part of the sources,
    so the selection is stated for any comparison. *)
Variable Equivalent : store -> option ptr -> ptr -> bool.

(** preload.go:167-172: [found]. *)
Definition foundInCurrent (h : store) (cur : gmap Z currentImageData)
    (idx : Z) (p : ptr) : bool :=
  match cur !! idx with
  | Some d => existsb (fun c => Equivalent h c p) (currentImages d)
  | None => false
  end.

(** preload.go:173-175.  [slices.Contains] on a [[]*Image] compares the
    pointers with [==]. *)
Definition selectImage (h : store) (cur : gmap Z currentImageData) (idx : Z)
    (sel : list ptr) (p : ptr) : list ptr :=
  if negb (foundInCurrent h cur idx p) && IsUploadNeeded h p
     && negb (bool_decide (p ∈ sel))
  then sel ++ [p]
  else sel.

(** preload.go:160-177: one iteration of the loop over the actions. *)
Definition selectAction (h : store) (cur : gmap Z currentImageData)
    (sel : list ptr) (a : action) : list ptr :=
  match actionType a with
  | actionTypeUpdate | actionTypeAppend =>
      match slide a with
      | None => sel
      | Some s => foldl (selectImage h cur (index a)) sel (Images s)
      end
  | actionTypeOther => sel
  end.

(** preload.go:157-178: [imagesToUpload]. *)
Definition imagesToUpload (h : store) (actions : list action)
    (cur : gmap Z currentImageData) : list ptr :=
  foldl (selectAction h cur) [] actions.

End Selection.

(** Where a worker goroutine of the upload stage stands. *)
Inductive uworker :=
  | UAcquire                       (* at sem.Acquire, preload.go:201 *)
  | UUpload                        (* permit held, Upload in flight, :210 *)
  | UPublish (publicURL rid : string) (* result stored, at the send, :219 *)
  | UAbandoned                     (* returned at :204, never admitted *)
  | UFailed (err : error)          (* returned at :213, Upload failed *)
  | UDone.                         (* returned at :220 *)

(** A call of [d.imageUploader.Upload] and what it returned: the public
    URL and the resource ID, or an error. *)
Record uploadCall := mkCall {
  callImage : ptr;
  callResult : (string * string) + error
}.

(** The goroutine started at preload.go:194. *)
Inductive background :=
  | BgNone
  | BgRunning
  | BgExited.

(** What [startUploadingImages] leaves behind when it returns: the channel
    it hands to the caller, the image objects it shares with the caller,
    and the goroutines.  [uUploadCalls] and [uPublished] record the calls
    of [d.imageUploader.Upload] and the values sent on [uploadedCh]. *)
Record ustate := mkU {
  uImages : list ptr;
  uHeap : store;
  uWorkers : list uworker;
  uSem : nat;
  uCtxDone : bool;
  uErr : option error;
  uCh : chan uploadedImageInfo;
  uBg : background;
  uUploadCalls : list uploadCall;
  uPublished : list uploadedImageInfo;
  uLogged : option error
}.

(** The moves of the upload stage. *)
Inductive uevent :=
  | UEvAcquire (k : nat)                    (* sem.Acquire returns nil *)
  | UEvAcquireErr (k : nat)                 (* sem.Acquire returns ctx.Err() *)
  | UEvUploadOk (k : nat) (publicURL rid : string)
  | UEvUploadErr (k : nat) (err : error)
  | UEvSend (k : nat)                       (* the send and the return *)
  | UEvClose                                (* eg.Wait returns, close *)
  | UEvCancel                               (* the caller's ctx is cancelled *)
  | UEvRecv.                                (* the caller receives a value *)

Definition ctxCanceled : error := "context canceled"%string.

Definition uReturned (w : uworker) : bool :=
  match w with
  | UAbandoned | UFailed _ | UDone => true
  | _ => false
  end.

Definition allReturned (ws : list uworker) : bool := forallb uReturned ws.

(** One move.  [None]: the move is not possible in this state. *)
Definition ustep (e : uevent) (s : ustate) : option ustate :=
  match e with
  | UEvAcquire k =>
      match uWorkers s !! k, semTryAcquire (uSem s) with
      | Some UAcquire, Some cur' =>
          Some (mkU (uImages s) (uHeap s) (<[k := UUpload]> (uWorkers s)) cur'
                    (uCtxDone s) (uErr s) (uCh s) (uBg s)
                    (uUploadCalls s) (uPublished s) (uLogged s))
      | _, _ => None
      end
  | UEvAcquireErr k =>
      match uWorkers s !! k, uImages s !! k with
      | Some UAcquire, Some p =>
          if uCtxDone s
          then Some (mkU (uImages s)
                      (SetUploadResult p "" (Some ctxCanceled) (uHeap s))
                      (<[k := UAbandoned]> (uWorkers s))
                      (uSem s) true (egRecord (uErr s) ctxCanceled) (uCh s)
                      (uBg s) (uUploadCalls s) (uPublished s) (uLogged s))
          else None
      | _, _ => None
      end
  | UEvUploadOk k url rid =>
      match uWorkers s !! k, uImages s !! k with
      | Some UUpload, Some p =>
          Some (mkU (uImages s) (SetUploadResult p url None (uHeap s))
                    (<[k := UPublish url rid]> (uWorkers s)) (uSem s)
                    (uCtxDone s) (uErr s) (uCh s) (uBg s)
                    (uUploadCalls s ++ [mkCall p (inl (url, rid))])
                    (uPublished s) (uLogged s))
      | _, _ => None
      end
  | UEvUploadErr k err =>
      match uWorkers s !! k, uImages s !! k with
      | Some UUpload, Some p =>
          Some (mkU (uImages s)
                    (SetUploadResult p ""
                       (Some ("failed to upload image: " +:+ err)) (uHeap s))
                    (<[k := UFailed err]> (uWorkers s))
                    (semRelease (uSem s)) true (egRecord (uErr s) err)
                    (uCh s) (uBg s)
                    (uUploadCalls s ++ [mkCall p (inr err)])
                    (uPublished s) (uLogged s))
      | _, _ => None
      end
  | UEvSend k =>
      match uWorkers s !! k, uImages s !! k with
      | Some (UPublish url rid), Some p =>
          match chanSend (mkInfo rid p) (uCh s) with
          | Some ch' =>
              Some (mkU (uImages s) (uHeap s)
                        (<[k := UDone]> (uWorkers s))
                        (semRelease (uSem s)) (uCtxDone s) (uErr s) ch'
                        (uBg s) (uUploadCalls s)
                        (uPublished s ++ [mkInfo rid p]) (uLogged s))
          | None => None
          end
      | _, _ => None
      end
  | UEvClose =>
      match uBg s, chanClose (uCh s) with
      | BgRunning, Some ch' =>
          if allReturned (uWorkers s)
          then Some (mkU (uImages s) (uHeap s) (uWorkers s) (uSem s) true
                         (uErr s) ch' BgExited (uUploadCalls s)
                         (uPublished s) (uErr s))
          else None
      | _, _ => None
      end
  | UEvCancel =>
      if uCtxDone s then None
      else Some (mkU (uImages s) (uHeap s) (uWorkers s) (uSem s) true
                     (uErr s) (uCh s) (uBg s) (uUploadCalls s)
                     (uPublished s) (uLogged s))
  | UEvRecv =>
      match chanRecv (uCh s) with
      | RecvValue _ ch' =>
          Some (mkU (uImages s) (uHeap s) (uWorkers s) (uSem s) (uCtxDone s)
                    (uErr s) ch' (uBg s) (uUploadCalls s) (uPublished s)
                    (uLogged s))
      | _ => None
      end
  end.

(** A schedule, run from left to right. *)
Fixpoint urun (evs : list uevent) (s : ustate) : option ustate :=
  match evs with
  | [] => Some s
  | e :: evs' =>
      match ustep e s with
      | Some s' => urun evs' s'
      | None => None
      end
  end.

(** preload.go:153-233, up to the [return]: the state in which the caller
    gets the channel.  With nothing selected the channel is closed at once
    and no goroutine exists; otherwise every selected image is claimed
    (:189-191) before the background goroutine is started (:194). *)
Definition startUploadingImages (Equivalent : store -> option ptr -> ptr -> bool)
    (ctxDone : bool) (h : store) (actions : list action)
    (cur : gmap Z currentImageData) : ustate :=
  let sel := imagesToUpload Equivalent h actions cur in
  let uploadedCh := makeChan (length sel) in
  if decide (length sel = 0)
  then mkU sel h [] 0 ctxDone None
           (mkChan (chanCap uploadedCh) (chanBuf uploadedCh) true)
           BgNone [] [] None
  else mkU sel (foldl (fun h' p => StartUpload p h') h sel)
           (replicate (length sel) UAcquire) 0 ctxDone None uploadedCh
           BgRunning [] [] None.

(** The workers that hold a permit of the semaphore. *)
Definition uHolding (w : uworker) : bool :=
  match w with
  | UUpload | UPublish _ _ => true
  | _ => false
  end.

Definition uInFlight (s : ustate) : nat :=
  length (filter (fun w => uHolding w = true) (uWorkers s)).

(** The moves that belong to the background goroutine and its workers,
    as opposed to the caller ([UEvRecv]) and to the owner of the context
    ([UEvCancel]). *)
Definition uInternal (e : uevent) : bool :=
  match e with
  | UEvCancel | UEvRecv => false
  | _ => true
  end.

(** The number of moves a worker still has to make, at most. *)
Definition uWeight (w : uworker) : nat :=
  match w with
  | UAcquire => 4
  | UUpload => 3
  | UPublish _ _ => 2
  | UAbandoned | UFailed _ | UDone => 0
  end.

Definition uMeasure (s : ustate) : nat :=
  sum_list (uWeight <$> uWorkers s)
  + (match uBg s with BgRunning => 1 | _ => 0 end)
  + length (chanBuf (uCh s))
  + (if uCtxDone s then 0 else 1).

(** ** The preloader: [preloadCurrentImages] (preload.go:42-150) *)

(** The part of the Google Slides presentation that the preloader reads
    ([slides.Presentation], an external package): a nil pointer is [None],
    [Placeholder] tells whether the placeholder pointer is set. *)
Record slidesLink := mkLink { Url : string }.

Record slidesImageProperties := mkProps { Link : option slidesLink }.

Record slidesImage := mkSlidesImage {
  ContentUrl : string;
  Placeholder : bool;
  ImageProperties : option slidesImageProperties
}.

Record slidesPageElement := mkElement {
  ObjectId : string;
  Description : string;
  ElementImage : option slidesImage
}.

Record slidesPage := mkPage { PageElements : list slidesPageElement }.

(** [imageToPreload] (preload.go:24-31).  [imageIndex] counts up from 0
    within a slide, so it is a natural number. *)
Record imageToPreload := mkToPreload {
  slideIndex : Z;
  imageIndex : nat;
  existingURL : string;
  objectID : string;
  isFromMarkdown : bool;
  externalLink : string
}.

(** [imageResult] (preload.go:34-39). *)
Record imageResult := mkResult {
  resSlideIndex : Z;
  resImageIndex : nat;
  resImage : option ptr;
  resObjectID : string
}.

Section Collect.

(** [descriptionImageFromMarkdown]: a constant declared outside the
    sources at hand. *)
Variable descriptionImageFromMarkdown : string.

(** preload.go:63-68. *)
Definition externalLinkOf (img : slidesImage) : string :=
  match ImageProperties img with
  | Some props =>
      match Link props with
      | Some l => Url l
      | None => ""
      end
  | None => ""
  end.

(** preload.go:56: the element holds an image that can be fetched. *)
Definition preloadable (element : slidesPageElement) : option slidesImage :=
  match ElementImage element with
  | Some img =>
      if negb (Placeholder img) && negb (String.eqb (ContentUrl img) "")
      then Some img
      else None
  | None => None
  end.

(** preload.go:54-72: the loop over the elements of one slide. *)
Fixpoint collectElements (idx : Z) (imageIndexInSlide : nat)
    (elements : list slidesPageElement) : list imageToPreload :=
  match elements with
  | [] => []
  | element :: rest =>
      match preloadable element with
      | Some img =>
          mkToPreload idx imageIndexInSlide (ContentUrl img)
            (ObjectId element)
            (String.eqb (Description element) descriptionImageFromMarkdown)
            (externalLinkOf img)
          :: collectElements idx (S imageIndexInSlide) rest
      | None => collectElements idx imageIndexInSlide rest
      end
  end.

(** preload.go:48-75: one iteration of the loop over the actions.  [None]
    is the run-time panic of [d.presentation.Slides[action.index]] at a
    negative index. *)
Definition collectAction (slides : list slidesPage)
    (acc : option (list imageToPreload)) (a : action)
    : option (list imageToPreload) :=
  match acc with
  | None => None
  | Some imagesToPreload =>
      match actionType a with
      | actionTypeUpdate =>
          if decide (index a < Z.of_nat (length slides))%Z
          then if decide (0 <= index a)%Z
               then match slides !! Z.to_nat (index a) with
                    | Some currentSlide =>
                        Some (imagesToPreload
                              ++ collectElements (index a) 0
                                   (PageElements currentSlide))
                    | None => None
                    end
               else None
          else Some imagesToPreload
      | _ => Some imagesToPreload
      end
  end.

Definition collectImagesToPreload (slides : list slidesPage)
    (actions : list action) : option (list imageToPreload) :=
  foldl (collectAction slides) (Some []) actions.

End Collect.

(** preload.go:125-146: one iteration of the merge loop. *)
Definition placeResult (result : gmap Z currentImageData) (res : imageResult)
    : gmap Z currentImageData :=
  match resImage res with
  | None => result
  | Some img =>
      let d := default (mkCurrent [] ∅) (result !! resSlideIndex res) in
      let imgs := currentImages d in
      let resized :=
        if decide (length imgs <= resImageIndex res)
        then imgs ++ replicate (resImageIndex res + 1 - length imgs) None
        else imgs in
      <[resSlideIndex res :=
          mkCurrent (<[resImageIndex res := Some img]> resized)
                    (<[img := resObjectID res]> (currentImageObjectIDMap d))]>
        result
  end.

Definition mergeResults (rs : list imageResult) : gmap Z currentImageData :=
  foldl placeResult ∅ rs.

(** Where a worker goroutine of the preload stage stands. *)
Inductive pworker :=
  | PAcquire                        (* at sem.Acquire, preload.go:90 *)
  | PFetch                          (* permit held, NewImage in flight *)
  | PSend (img : ptr)               (* image built, at the send, :109 *)
  | PAbandoned                      (* returned at :91, never admitted *)
  | PFailed (err : error)           (* returned at :105, the fetch failed *)
  | PDone.                          (* returned at :115 *)

(** The state of a call of [preloadCurrentImages].  The image built by
    task [k] is the object at address [k] of [pHeap]: the tasks allocate
    pairwise distinct objects, and an address is only ever compared with
    another one.  [pOutcome] is the pair returned, once the call is over. *)
Record pstate := mkP {
  pTodo : list imageToPreload;
  pHeap : store;
  pWorkers : list pworker;
  pSem : nat;
  pCtxDone : bool;
  pErr : option error;
  pCh : chan imageResult;
  pOutcome : option (option (gmap Z currentImageData) * option error)
}.

Inductive pevent :=
  | PEvAcquire (k : nat)
  | PEvAcquireErr (k : nat)
  | PEvFetchOk (k : nat) (img : Image)    (* NewImage[FromMarkdown] succeeds *)
  | PEvFetchErr (k : nat) (err : error)   (* NewImage[FromMarkdown] fails *)
  | PEvSend (k : nat)                     (* the send and the return *)
  | PEvCancel                             (* the caller's ctx is cancelled *)
  | PEvWait.                              (* eg.Wait returns, :119-149 *)

Definition pReturned (w : pworker) : bool :=
  match w with
  | PAbandoned | PFailed _ | PDone => true
  | _ => false
  end.

Definition pAllReturned (ws : list pworker) : bool := forallb pReturned ws.

Definition setLink (i : Image) (l : string) : Image :=
  mkImage (bytes i) (mimeType i) (sourceLink i) l (state i) (uploadedURL i)
          (uploadError i).

Definition pstep (e : pevent) (s : pstate) : option pstate :=
  match pOutcome s with
  | Some _ => None
  | None =>
  match e with
  | PEvAcquire k =>
      match pWorkers s !! k, semTryAcquire (pSem s) with
      | Some PAcquire, Some cur' =>
          Some (mkP (pTodo s) (pHeap s) (<[k := PFetch]> (pWorkers s)) cur'
                    (pCtxDone s) (pErr s) (pCh s) None)
      | _, _ => None
      end
  | PEvAcquireErr k =>
      match pWorkers s !! k with
      | Some PAcquire =>
          if pCtxDone s
          then Some (mkP (pTodo s) (pHeap s)
                      (<[k := PAbandoned]> (pWorkers s))
                      (pSem s) true (egRecord (pErr s) ctxCanceled) (pCh s)
                      None)
          else None
      | _ => None
      end
  | PEvFetchOk k img =>
      match pWorkers s !! k, pTodo s !! k with
      | Some PFetch, Some imgToPreload =>
          Some (mkP (pTodo s)
                    (<[k := setLink img (externalLink imgToPreload)]> (pHeap s))
                    (<[k := PSend k]> (pWorkers s)) (pSem s) (pCtxDone s)
                    (pErr s) (pCh s) None)
      | _, _ => None
      end
  | PEvFetchErr k err =>
      match pWorkers s !! k, pTodo s !! k with
      | Some PFetch, Some imgToPreload =>
          let werr := ("failed to preload image from URL "
                       +:+ existingURL imgToPreload +:+ ": " +:+ err)%string in
          Some (mkP (pTodo s) (pHeap s)
                    (<[k := PFailed werr]> (pWorkers s))
                    (semRelease (pSem s)) true (egRecord (pErr s) werr)
                    (pCh s) None)
      | _, _ => None
      end
  | PEvSend k =>
      match pWorkers s !! k, pTodo s !! k with
      | Some (PSend img), Some imgToPreload =>
          match chanSend (mkResult (slideIndex imgToPreload)
                            (imageIndex imgToPreload) (Some img)
                            (objectID imgToPreload)) (pCh s) with
          | Some ch' =>
              Some (mkP (pTodo s) (pHeap s)
                        (<[k := PDone]> (pWorkers s))
                        (semRelease (pSem s)) (pCtxDone s) (pErr s) ch' None)
          | None => None
          end
      | _, _ => None
      end
  | PEvCancel =>
      if pCtxDone s then None
      else Some (mkP (pTodo s) (pHeap s) (pWorkers s) (pSem s) true (pErr s)
                     (pCh s) None)
  | PEvWait =>
      if pAllReturned (pWorkers s)
      then match pErr s with
           | Some err =>
               Some (mkP (pTodo s) (pHeap s) (pWorkers s) (pSem s) true
                         (pErr s) (pCh s)
                         (Some (None,
                                Some ("failed to preload images: " +:+ err))))
           | None =>
               match chanClose (pCh s) with
               | Some ch' =>
                   match rangeChan ch' with
                   | Some rs =>
                       Some (mkP (pTodo s) (pHeap s) (pWorkers s) (pSem s)
                                 true None (mkChan (chanCap ch') [] true)
                                 (Some (Some (mergeResults rs), None)))
                   | None => None
                   end
               | None => None
               end
           end
      else None
  end
  end.

Fixpoint prun (evs : list pevent) (s : pstate) : option pstate :=
  match evs with
  | [] => Some s
  | e :: evs' =>
      match pstep e s with
      | Some s' => prun evs' s'
      | None => None
      end
  end.

(** preload.go:42-93: the call up to the point where the workers are
    started.  [None] is the panic of the collection loop; with nothing to
    preload the call is over at once (:77-79). *)
Definition preloadCurrentImages (descriptionImageFromMarkdown : string)
    (slides : list slidesPage) (ctxDone : bool) (actions : list action)
    : option pstate :=
  match collectImagesToPreload descriptionImageFromMarkdown slides actions with
  | None => None
  | Some imagesToPreload =>
      if decide (length imagesToPreload = 0)
      then Some (mkP [] ∅ [] 0 ctxDone None (makeChan 0) (Some (Some ∅, None)))
      else Some (mkP imagesToPreload ∅
                     (replicate (length imagesToPreload) PAcquire) 0 ctxDone
                     None (makeChan (length imagesToPreload)) None)
  end.

Definition pHolding (w : pworker) : bool :=
  match w with
  | PFetch | PSend _ => true
  | _ => false
  end.

Definition pInFlight (s : pstate) : nat :=
  length (filter (fun w => pHolding w = true) (pWorkers s)).




(** ** The cleanup sweeper: [cleanupUploadedImages] (preload.go:236-275) *)

(** Where the loop of [cleanupUploadedImages] stands. *)
Inductive cloop :=
  | CSelect                             (* at the select, :241 *)
  | CAcquire (info : uploadedImageInfo) (* at sem.Acquire, :249 *)
  | CWait                               (* at wg.Wait, :245 *)
  | CReturned (err : option error).

(** A deletion goroutine (:254-269). *)
Inductive ctask :=
  | CDeleting (info : uploadedImageInfo)
  | CDone.

(** [cIncoming] is what [uploadedCh] still delivers before it is closed;
    [cDeleteCalls] records the calls of [d.imageUploader.Delete] and
    [cDeleteErrors] what was logged at :265. *)
Record cstate := mkC {
  cLoop : cloop;
  cIncoming : list uploadedImageInfo;
  cSem : nat;
  cTasks : list ctask;
  cCtxDone : bool;
  cDeleteCalls : list string;
  cDeleteErrors : list (string * error)
}.

Inductive cevent :=
  | CEvRecv                     (* a value is received, :242 *)
  | CEvRecvClosed               (* the channel is closed and drained *)
  | CEvCtxDone                  (* the select takes ctx.Done(), :271 *)
  | CEvAcquire                  (* sem.Acquire returns nil, goroutine started *)
  | CEvAcquireErr               (* sem.Acquire returns ctx.Err() *)
  | CEvDelete (k : nat) (err : option error) (* Delete returns, task ends *)
  | CEvWaitDone                 (* wg.Wait returns *)
  | CEvCancel.                  (* the caller's ctx is cancelled *)

Definition cAllDone (ts : list ctask) : bool :=
  forallb (fun t => match t with CDone => true | _ => false end) ts.

Definition cstep (e : cevent) (s : cstate) : option cstate :=
  match e with
  | CEvRecv =>
      match cLoop s, cIncoming s with
      | CSelect, info :: rest =>
          Some (mkC (CAcquire info) rest (cSem s) (cTasks s) (cCtxDone s)
                    (cDeleteCalls s) (cDeleteErrors s))
      | _, _ => None
      end
  | CEvRecvClosed =>
      match cLoop s, cIncoming s with
      | CSelect, [] =>
          Some (mkC CWait [] (cSem s) (cTasks s) (cCtxDone s)
                    (cDeleteCalls s) (cDeleteErrors s))
      | _, _ => None
      end
  | CEvCtxDone =>
      match cLoop s with
      | CSelect =>
          if cCtxDone s
          then Some (mkC (CReturned (Some ctxCanceled)) (cIncoming s) (cSem s)
                         (cTasks s) true (cDeleteCalls s) (cDeleteErrors s))
          else None
      | _ => None
      end
  | CEvAcquire =>
      match cLoop s, semTryAcquire (cSem s) with
      | CAcquire info, Some cur' =>
          Some (mkC CSelect (cIncoming s) cur' (cTasks s ++ [CDeleting info])
                    (cCtxDone s) (cDeleteCalls s) (cDeleteErrors s))
      | _, _ => None
      end
  | CEvAcquireErr =>
      match cLoop s with
      | CAcquire info =>
          if cCtxDone s
          then Some (mkC (CReturned
                            (Some ("failed to acquire semaphore: "
                                   +:+ ctxCanceled)))
                         (cIncoming s) (cSem s) (cTasks s) true
                         (cDeleteCalls s) (cDeleteErrors s))
          else None
      | _ => None
      end
  | CEvDelete k err =>
      match cTasks s !! k with
      | Some (CDeleting info) =>
          Some (mkC (cLoop s) (cIncoming s) (semRelease (cSem s))
                    (<[k := CDone]> (cTasks s)) (cCtxDone s)
                    (cDeleteCalls s ++ [resourceID info])
                    (match err with
                     | Some e => cDeleteErrors s ++ [(resourceID info, e)]
                     | None => cDeleteErrors s
                     end))
      | _ => None
      end
  | CEvWaitDone =>
      match cLoop s with
      | CWait =>
          if cAllDone (cTasks s)
          then Some (mkC (CReturned None) (cIncoming s) (cSem s) (cTasks s)
                         (cCtxDone s) (cDeleteCalls s) (cDeleteErrors s))
          else None
      | _ => None
      end
  | CEvCancel =>
      if cCtxDone s then None
      else Some (mkC (cLoop s) (cIncoming s) (cSem s) (cTasks s) true
                     (cDeleteCalls s) (cDeleteErrors s))
  end.

Fixpoint crun (evs : list cevent) (s : cstate) : option cstate :=
  match evs with
  | [] => Some s
  | e :: evs' =>
      match cstep e s with
      | Some s' => crun evs' s'
      | None => None
      end
  end.

(** preload.go:236-239: the call before its first move, for a channel that
    delivers [events] and is then closed. *)
Definition cleanupUploadedImages (ctxDone : bool)
    (events : list uploadedImageInfo) : cstate :=
  mkC CSelect events 0 [] ctxDone [] [].

Definition cHolding (t : ctask) : bool :=
  match t with
  | CDeleting _ => true
  | CDone => false
  end.

Definition cInFlight (s : cstate) : nat :=
  length (filter (fun t => cHolding t = true) (cTasks s)).

Definition cNoCancel (e : cevent) : bool :=
  match e with
  | CEvCancel => false
  | _ => true
  end.

Definition cWeight (l : cloop) : nat :=
  match l with
  | CSelect => 2
  | CAcquire _ => 4
  | CWait => 1
  | CReturned _ => 0
  end.

Definition cMeasure (s : cstate) : nat :=
  cWeight (cLoop s) + 3 * length (cIncoming s)
  + length (filter (fun t => cHolding t = true) (cTasks s))
  + (if cCtxDone s then 0 else 1).

(** ** Invariants, measures and concrete batches *)

(** What the selection loop keeps true of [imagesToUpload]. *)
Definition selectedOK (h : store) (sel : list ptr) : Prop :=
  NoDup sel ∧ ∀ p, p ∈ sel → IsUploadNeeded h p = true.

(** ** The invariant of the upload stage *)

Definition imageIs (h : store) (p : ptr) (st : uploadState) (url : string)
    (err : option error) : Prop :=
  ∃ i, h !! p = Some i ∧ state i = st ∧ uploadedURL i = url
       ∧ uploadError i = err.

Definition uWorkerOK (s : ustate) (p : ptr) (w : uworker) : Prop :=
  match w with
  | UAcquire | UUpload =>
      (p ∉ callImage <$> uUploadCalls s) ∧ (p ∉ image <$> uPublished s)
      ∧ stateOf (uHeap s) p = Some Uploading
  | UPublish url rid =>
      mkCall p (inl (url, rid)) ∈ uUploadCalls s
      ∧ (p ∉ image <$> uPublished s)
      ∧ imageIs (uHeap s) p Uploaded url None
  | UAbandoned =>
      (p ∉ callImage <$> uUploadCalls s) ∧ (p ∉ image <$> uPublished s)
      ∧ imageIs (uHeap s) p Failed "" (Some ctxCanceled)
  | UFailed err =>
      mkCall p (inr err) ∈ uUploadCalls s ∧ (p ∉ image <$> uPublished s)
      ∧ imageIs (uHeap s) p Failed ""
          (Some ("failed to upload image: " +:+ err))
  | UDone =>
      ∃ url rid, mkCall p (inl (url, rid)) ∈ uUploadCalls s
                 ∧ mkInfo rid p ∈ uPublished s
                 ∧ imageIs (uHeap s) p Uploaded url None
  end.

Record uInv (s : ustate) : Prop := mkUInv {
  inv_len : length (uWorkers s) = length (uImages s);
  inv_nodup : NoDup (uImages s);
  inv_sem : uSem s = uInFlight s;
  inv_sem_le : uSem s ≤ maxPreloadWorkersNum;
  inv_cap : chanCap (uCh s) = length (uImages s);
  inv_calls_nodup : NoDup (callImage <$> uUploadCalls s);
  inv_calls_sel : ∀ c, c ∈ uUploadCalls s → callImage c ∈ uImages s;
  inv_pub_nodup : NoDup (image <$> uPublished s);
  inv_pub_sel : ∀ i, i ∈ uPublished s → image i ∈ uImages s;
  inv_buf : chanBuf (uCh s) `suffix_of` uPublished s;
  inv_workers : ∀ k p w,
    uImages s !! k = Some p → uWorkers s !! k = Some w → uWorkerOK s p w;
  inv_bg : match uBg s with
           | BgRunning => chanClosed (uCh s) = false
           | BgExited =>
               chanClosed (uCh s) = true ∧ allReturned (uWorkers s) = true
           | BgNone => chanClosed (uCh s) = true ∧ uWorkers s = []
           end
}.

Definition eventsFor (p : ptr) (s : ustate) : list uploadedImageInfo :=
  filter (λ i, image i = p) (uPublished s).

Definition uploadsOf (p : ptr) (s : ustate) : list uploadCall :=
  filter (λ c, callImage c = p) (uUploadCalls s).



#[global] Instance imageResult_eq_dec : EqDecision imageResult.
Proof. solve_decision. Defined.


(** The result that task [k] sends (preload.go:109-114). *)
Definition resultOf (k : nat) (t : imageToPreload) : imageResult :=
  mkResult (slideIndex t) (imageIndex t) (Some k) (objectID t).

Definition allResults (todo : list imageToPreload) : list imageResult :=
  imap resultOf todo.



(** ** The invariant of the preload stage *)

Definition pInternal (e : pevent) : bool :=
  match e with
  | PEvCancel => false
  | _ => true
  end.

Definition pWeight (w : pworker) : nat :=
  match w with
  | PAcquire => 3
  | PFetch => 2
  | PSend _ => 1
  | PAbandoned | PFailed _ | PDone => 0
  end.

Definition pMeasure (s : pstate) : nat :=
  sum_list (pWeight <$> pWorkers s)
  + (match pOutcome s with None => 1 | Some _ => 0 end)
  + (if pCtxDone s then 0 else 1).

Definition linked (h : store) (k : nat) (t : imageToPreload) : Prop :=
  ∃ i, h !! k = Some i ∧ link i = externalLink t.

Definition pWorkerOK (s : pstate) (k : nat) (t : imageToPreload)
    (w : pworker) : Prop :=
  match w with
  | PAcquire | PFetch => Some k ∉ resImage <$> chanBuf (pCh s)
  | PSend img =>
      img = k ∧ (Some k ∉ resImage <$> chanBuf (pCh s))
      ∧ linked (pHeap s) k t
  | PAbandoned | PFailed _ =>
      (Some k ∉ resImage <$> chanBuf (pCh s)) ∧ is_Some (pErr s)
  | PDone => resultOf k t ∈ chanBuf (pCh s) ∧ linked (pHeap s) k t
  end.

Definition pFailedWorker (w : pworker) : bool :=
  match w with
  | PAbandoned | PFailed _ => true
  | _ => false
  end.

Record pRunning (s : pstate) : Prop := mkPRunning {
  run_cap : chanCap (pCh s) = length (pTodo s);
  run_open : chanClosed (pCh s) = false;
  run_nodup : NoDup (resImage <$> chanBuf (pCh s));
  run_buf : ∀ r, r ∈ chanBuf (pCh s) →
    ∃ k t, pTodo s !! k = Some t ∧ r = resultOf k t;
  run_workers : ∀ k t w,
    pTodo s !! k = Some t → pWorkers s !! k = Some w → pWorkerOK s k t w;
  run_err : pErr s = None →
    ∀ k w, pWorkers s !! k = Some w → pFailedWorker w = false
}.

Definition pFinished (s : pstate)
    (out : option (gmap Z currentImageData) * option error) : Prop :=
  pAllReturned (pWorkers s) = true
  ∧ ((∃ e, pErr s = Some e ∧ out = (None, Some ("failed to preload images: " +:+ e))
           ∧ ∃ k w, pWorkers s !! k = Some w ∧ pFailedWorker w = true)
     ∨ (∃ rs, out = (Some (mergeResults rs), None)
           ∧ rs ≡ₚ allResults (pTodo s)
           ∧ (∀ k w, pWorkers s !! k = Some w → w = PDone)
           ∧ ∀ k t, pTodo s !! k = Some t → linked (pHeap s) k t)).

Record pInv (s : pstate) : Prop := mkPInv {
  pinv_len : length (pWorkers s) = length (pTodo s);
  pinv_sem : pSem s = pInFlight s;
  pinv_sem_le : pSem s ≤ maxPreloadWorkersNum;
  pinv_out : match pOutcome s with
             | None => pRunning s
             | Some out => pFinished s out
             end;
  pinv_err : is_Some (pErr s) →
    ∃ k w, pWorkers s !! k = Some w ∧ pFailedWorker w = true
}.

(** ** The invariant of the cleanup stage *)

Definition cPending (l : cloop) : list uploadedImageInfo :=
  match l with
  | CAcquire info => [info]
  | _ => []
  end.

Definition cRunning (ts : list ctask) : list uploadedImageInfo :=
  omap (λ t, match t with CDeleting info => Some info | CDone => None end) ts.

(** Every event of the stream is in exactly one place: deleted already,
    in a deletion goroutine, in the hands of the loop, or still to come. *)
Definition cAccounted (events : list uploadedImageInfo) (s : cstate) : Prop :=
  cDeleteCalls s
  ++ (resourceID <$> cRunning (cTasks s))
  ++ (resourceID <$> cPending (cLoop s))
  ++ (resourceID <$> cIncoming s)
  ≡ₚ resourceID <$> events.

Record cInv (events : list uploadedImageInfo) (s : cstate) : Prop := mkCInv {
  cinv_sem : cSem s = cInFlight s;
  cinv_sem_le : cSem s ≤ maxPreloadWorkersNum;
  cinv_acc : match cLoop s with
             | CReturned (Some _) => True
             | _ => cAccounted events s
             end;
  cinv_wait : cLoop s = CWait → cIncoming s = [];
  cinv_ret : cLoop s = CReturned None →
    cIncoming s = [] ∧ cAllDone (cTasks s) = true
}.

(** Without a cancellation the context stays live and the loop cannot
    return an error. *)
Definition cLive (s : cstate) : Prop :=
  cCtxDone s = false ∧ ∀ e, cLoop s ≠ CReturned (Some e).

(** Two image objects with the same content, on two slides. *)
Definition imgX : Image :=
  mkImage [Byte.x01; Byte.x02] "image/png" "a.png" "" Needed "" None.

Definition twoCopies : gmap nat Image := <[0 := imgX]> (<[1 := imgX]> ∅).

Definition twoSlides : list action :=
  [mkAction actionTypeUpdate 0 (Some (mkSlide [0]));
   mkAction actionTypeAppend 1 (Some (mkSlide [1]))].

Definition twoSlidesStart : ustate :=
  startUploadingImages contentEquivalent false twoCopies twoSlides ∅.

(** Both uploads succeed, one after the other. *)
Definition uploadBoth : list uevent :=
  [UEvAcquire 0; UEvUploadOk 0 "u0" "r0"; UEvSend 0;
   UEvAcquire 1; UEvUploadOk 1 "u1" "r1"; UEvSend 1; UEvClose].

Definition uploadBothEnd : ustate :=
  Eval vm_compute in default twoSlidesStart (urun uploadBoth twoSlidesStart).

(** The first upload fails, the second image is never admitted. *)
Definition uploadFails : list uevent :=
  [UEvAcquire 0; UEvUploadErr 0 "boom"; UEvAcquireErr 1; UEvClose].

Definition uploadFailsEnd : ustate :=
  Eval vm_compute in default twoSlidesStart (urun uploadFails twoSlidesStart).

(** The first upload has succeeded and its worker stands at the send. *)
Definition uploadFirst : list uevent :=
  [UEvAcquire 0; UEvUploadOk 0 "u0" "r0"].

Definition uploadFirstEnd : ustate :=
  Eval vm_compute in default twoSlidesStart (urun uploadFirst twoSlidesStart).

(** A batch that selects nothing: no action carries a slide. *)
Definition noSlides : list action :=
  [mkAction actionTypeUpdate 0 None; mkAction actionTypeOther 1 None].

(** One slide with one embedded image, updated twice in one batch. *)
Definition oneImageSlide : list slidesPage :=
  [mkPage [mkElement "obj1" ""
             (Some (mkSlidesImage "https://x/y.png" false None))]].


Definition updateOnce : list action := [mkAction actionTypeUpdate 0 None].





Definition fetchOneFails : list pevent :=
  [PEvAcquire 0; PEvFetchErr 0 "404"; PEvWait].


Definition updateOnceStart : pstate :=
  Eval vm_compute in
    default (mkP [] ∅ [] 0 false None (makeChan 0) None)
            (preloadCurrentImages "md" oneImageSlide false updateOnce).


Definition fetchOneFailsEnd : pstate :=
  Eval vm_compute in
    default updateOnceStart (prun fetchOneFails updateOnceStart).

(** Three completion events; the second deletion fails. *)
Definition threeEvents : list uploadedImageInfo :=
  [mkInfo "A" 0; mkInfo "B" 1; mkInfo "C" 2].

Definition sweepThree : list cevent :=
  [CEvRecv; CEvAcquire; CEvDelete 0 None;
   CEvRecv; CEvAcquire; CEvDelete 1 (Some "delete failed");
   CEvRecv; CEvAcquire; CEvDelete 2 None;
   CEvRecvClosed; CEvWaitDone].

Definition sweepThreeEnd : cstate :=
  Eval vm_compute in
    default (cleanupUploadedImages false threeEvents)
            (crun sweepThree (cleanupUploadedImages false threeEvents)).

(** The claim as the specification states it: content that is equivalent
    is uploaded by at most one call and published by at most one event. *)
Definition uploadsEachContentOnce : Prop :=
  ∀ h actions cur evs s,
    urun evs (startUploadingImages contentEquivalent false h actions cur)
    = Some s →
    (∀ j1 j2 c1 c2,
       uUploadCalls s !! j1 = Some c1 → uUploadCalls s !! j2 = Some c2 →
       contentEquivalent h (Some (callImage c1)) (callImage c2) = true →
       j1 = j2)
    ∧ (∀ j1 j2 i1 i2,
       uPublished s !! j1 = Some i1 → uPublished s !! j2 = Some i2 →
       contentEquivalent h (Some (image i1)) (image i2) = true →
       j1 = j2).


(** * Proofs *)

(** ** Lists of workers *)

Section Workers.

Context {A : Type}.

Implicit Types (f : A → bool) (l : list A).

Lemma count_insert f l k x y :
  l !! k = Some x →
  length (filter (λ a, f a = true) (<[k := y]> l)) + (if f x then 1 else 0)
  = length (filter (λ a, f a = true) l) + (if f y then 1 else 0).
Proof.
  revert k. induction l as [|a l IH]; intros [|k] Hk; simplify_eq/=.
  - rewrite !filter_cons. destruct (f x) eqn:Hx, (f y) eqn:Hy;
      repeat case_decide; simpl; try congruence; lia.
  - specialize (IH _ Hk). rewrite !filter_cons.
    destruct (f a) eqn:Ha; repeat case_decide; simpl; try congruence; lia.
Qed.

Lemma count_le_length f l :
  length (filter (λ a, f a = true) l) ≤ length l.
Proof. apply length_filter. Qed.

Lemma weight_insert (w : A → nat) l k x y :
  l !! k = Some x →
  sum_list (w <$> <[k := y]> l) + w x = sum_list (w <$> l) + w y.
Proof.
  revert k. induction l as [|a l IH]; intros [|k] Hk; simplify_eq/=; [lia|].
  specialize (IH _ Hk). lia.
Qed.

Lemma forallb_lookup f l :
  forallb f l = true ↔ ∀ k x, l !! k = Some x → f x = true.
Proof.
  induction l as [|a l IH]; simpl.
  - split; [intros _ k x Hk; by destruct k|done].
  - rewrite andb_true_iff, IH. split.
    + intros [Ha Hl] [|k] x Hk; simplify_eq/=; eauto.
    + intros H. split; [apply (H 0); done|].
      intros k x Hk. apply (H (S k)); done.
Qed.

Lemma forallb_insert f l k y :
  forallb f l = true → f y = true → forallb f (<[k := y]> l) = true.
Proof.
  rewrite !forallb_lookup. intros Hl Hy j x Hj.
  destruct (decide (k = j)) as [->|Hne].
  - destruct (decide (j < length l)).
    + rewrite list_lookup_insert_eq in Hj by done. by simplify_eq.
    + rewrite list_insert_ge in Hj by lia. eauto.
  - rewrite list_lookup_insert_ne in Hj by done. eauto.
Qed.

Lemma count_zero_forall f l :
  forallb (λ a, negb (f a)) l = true →
  length (filter (λ a, f a = true) l) = 0.
Proof.
  induction l as [|a l IH]; simpl; [done|].
  rewrite andb_true_iff, negb_true_iff. intros [Ha Hl].
  rewrite filter_cons. case_decide; [congruence|]. auto.
Qed.

End Workers.

Section SelectionFacts.

Variable Equivalent : store → option ptr → ptr → bool.

Variables (h : store) (cur : gmap Z currentImageData).

Lemma selectImage_ok idx sel p :
  selectedOK h sel → selectedOK h (selectImage Equivalent h cur idx sel p).
Proof.
  intros [Hnd Hneed]. unfold selectImage.
  destruct (foundInCurrent _ _ _ _ _); simpl; [done|].
  destruct (IsUploadNeeded h p) eqn:Hp; simpl; [|done].
  case_bool_decide; simpl; [done|].
  split.
  - apply NoDup_app. split_and!; [done| |apply NoDup_singleton].
    intros q Hq ->%list_elem_of_singleton. done.
  - intros q [Hq| ->%list_elem_of_singleton]%elem_of_app; auto.
Qed.

Lemma selectSlide_ok idx imgs sel :
  selectedOK h sel → selectedOK h (foldl (selectImage Equivalent h cur idx) sel imgs).
Proof.
  revert sel. induction imgs as [|p imgs IH]; simpl; [done|].
  intros sel Hsel. by apply IH, selectImage_ok.
Qed.

Lemma selectAction_ok sel a :
  selectedOK h sel → selectedOK h (selectAction Equivalent h cur sel a).
Proof.
  intros Hsel. unfold selectAction.
  destruct (actionType a); [| |done];
    (destruct (slide a); [by apply selectSlide_ok|done]).
Qed.

Lemma imagesToUpload_ok actions :
  selectedOK h (imagesToUpload Equivalent h actions cur).
Proof.
  unfold imagesToUpload.
  assert (Hnil : selectedOK h []).
  { split; [constructor|]. intros p Hp. by apply elem_of_nil in Hp. }
  revert Hnil. generalize (@nil nat).
  induction actions as [|a actions IH]; simpl; [done|].
  intros sel Hsel. by apply IH, selectAction_ok.
Qed.

End SelectionFacts.

(** ** The image store *)

Lemma stateOf_StartUpload q h p :
  stateOf (StartUpload q h) p
  = if decide (p = q ∧ stateOf h p = Some Needed) then Some Uploading
    else stateOf h p.
Proof.
  unfold StartUpload, stateOf.
  destruct (h !! q) as [i|] eqn:Hq.
  - case_bool_decide as Hst.
    + destruct (decide (p = q)) as [->|Hne].
      * rewrite lookup_insert_eq, Hq. simpl.
        rewrite decide_True; [done|]. by rewrite Hst.
      * rewrite lookup_insert_ne by done.
        rewrite decide_False; [done|]. naive_solver.
    + rewrite decide_False; [done|]. intros [-> Hp].
      rewrite Hq in Hp. naive_solver.
  - rewrite decide_False; [done|]. intros [-> Hp].
    rewrite Hq in Hp. naive_solver.
Qed.

Lemma stateOf_claimed sel h p :
  stateOf (foldl (λ h' q, StartUpload q h') h sel) p
  = if decide (p ∈ sel ∧ stateOf h p = Some Needed) then Some Uploading
    else stateOf h p.
Proof.
  revert h. induction sel as [|q sel IH]; intros h; simpl.
  - done.
  - rewrite IH, stateOf_StartUpload.
    repeat case_decide; try done; set_solver.
Qed.

Lemma IsUploadNeeded_stateOf h p :
  IsUploadNeeded h p = true ↔ stateOf h p = Some Needed.
Proof.
  unfold IsUploadNeeded, stateOf. destruct (h !! p) as [i|]; simpl.
  - rewrite bool_decide_eq_true. split; [by intros ->|by intros [=]].
  - split; intros; discriminate.
Qed.

Lemma stateOf_SetUploadResult_ne q url err h p :
  p ≠ q → SetUploadResult q url err h !! p = h !! p.
Proof.
  intros Hne. unfold SetUploadResult.
  destruct (h !! q); [|done]. case_bool_decide; [|done].
  by rewrite lookup_insert_ne.
Qed.

Lemma SetUploadResult_uploading p url err h :
  stateOf h p = Some Uploading →
  ∃ i, SetUploadResult p url err h !! p = Some i
       ∧ state i = (match err with Some _ => Failed | None => Uploaded end)
       ∧ uploadedURL i = url ∧ uploadError i = err.
Proof.
  unfold stateOf, SetUploadResult. destruct (h !! p) as [i|]; [|done].
  simpl. intros [= ->]. rewrite bool_decide_true by done.
  rewrite lookup_insert_eq. eauto.
Qed.

Lemma uWorkerOK_frame s s' p w cs ps :
  uHeap s' !! p = uHeap s !! p →
  uUploadCalls s' = uUploadCalls s ++ cs → p ∉ (callImage <$> cs) →
  uPublished s' = uPublished s ++ ps → p ∉ (image <$> ps) →
  uWorkerOK s p w → uWorkerOK s' p w.
Proof.
  intros Hh Hc Hcs Hp Hps. unfold uWorkerOK, imageIs, stateOf.
  rewrite Hh, Hc, Hp, !fmap_app.
  destruct w; repeat setoid_rewrite elem_of_app; naive_solver.
Qed.

Lemma lookup_NoDup_ne {A} (l : list A) j k x y :
  NoDup l → l !! j = Some x → l !! k = Some y → j ≠ k → x ≠ y.
Proof. intros Hnd Hj Hk Hne ->. by apply Hne, (NoDup_lookup l j k y). Qed.

Lemma uInv_start Equivalent ctxDone h actions cur :
  uInv (startUploadingImages Equivalent ctxDone h actions cur).
Proof.
  unfold startUploadingImages.
  destruct (imagesToUpload_ok Equivalent h cur actions) as [Hnd Hneed].
  set (sel := imagesToUpload Equivalent h actions cur) in *.
  case_decide as Hlen.
  - apply length_zero_iff_nil in Hlen. rewrite Hlen.
    split; simpl; try done; try (by constructor); try set_solver; try lia.
  - split; simpl; try done; try (by constructor); try set_solver.
    + by rewrite length_replicate.
    + unfold uInFlight. simpl. symmetry. apply count_zero_forall.
      apply forallb_lookup. by intros k x [-> _]%lookup_replicate.
    + unfold maxPreloadWorkersNum. lia.
    + intros k p w Hk [-> _]%lookup_replicate. simpl.
      split_and!; [set_solver..|].
      rewrite stateOf_claimed. rewrite decide_True; [done|].
      split; [by eapply list_elem_of_lookup_2|].
      apply IsUploadNeeded_stateOf, Hneed. by eapply list_elem_of_lookup_2.
Qed.

Lemma uWorkers_update s s' k0 p0 w0 cs ps :
  uInv s → uImages s' = uImages s →
  uWorkers s' = <[k0 := w0]> (uWorkers s) →
  uImages s !! k0 = Some p0 →
  (∀ p, p ≠ p0 → uHeap s' !! p = uHeap s !! p) →
  uUploadCalls s' = uUploadCalls s ++ cs → (∀ c, c ∈ cs → callImage c = p0) →
  uPublished s' = uPublished s ++ ps → (∀ i, i ∈ ps → image i = p0) →
  uWorkerOK s' p0 w0 →
  ∀ k p w,
    uImages s' !! k = Some p → uWorkers s' !! k = Some w → uWorkerOK s' p w.
Proof.
  intros Hinv Himg Hws Hk0 Hheap Hcs Hcs' Hps Hps' Hnew k p w Hk Hw.
  rewrite Himg in Hk. rewrite Hws in Hw.
  destruct (decide (k = k0)) as [->|Hne].
  - rewrite list_lookup_insert_eq in Hw.
    + by simplify_eq.
    + rewrite (inv_len _ Hinv). by eapply lookup_lt_Some.
  - rewrite list_lookup_insert_ne in Hw by done.
    assert (p ≠ p0) by (eapply lookup_NoDup_ne; eauto using inv_nodup).
    eapply (uWorkerOK_frame s); eauto using inv_workers.
    + intros (c & -> & Hc)%list_elem_of_fmap. by apply Hcs' in Hc.
    + intros (i & -> & Hi)%list_elem_of_fmap. by apply Hps' in Hi.
Qed.

Lemma uInFlight_update s s' k0 w0 w :
  uWorkers s' = <[k0 := w0]> (uWorkers s) → uWorkers s !! k0 = Some w →
  uInFlight s' + (if uHolding w then 1 else 0)
  = uInFlight s + (if uHolding w0 then 1 else 0).
Proof. intros Hws Hw. unfold uInFlight. rewrite Hws. by apply count_insert. Qed.

Lemma uWorkerOK_sel s k p w :
  uInv s → uImages s !! k = Some p → uWorkers s !! k = Some w →
  uWorkerOK s p w.
Proof. intros. by eapply inv_workers. Qed.

Lemma uWorkerOK_same s s' p w :
  uHeap s' = uHeap s → uUploadCalls s' = uUploadCalls s →
  uPublished s' = uPublished s → uWorkerOK s p w → uWorkerOK s' p w.
Proof.
  intros Hh Hc Hp. apply (uWorkerOK_frame s s' p w [] []);
    rewrite ?app_nil_r, ?Hh; try done; set_solver.
Qed.

Ltac name_state :=
  match goal with |- uInv ?x => set (s' := x) end.

Ltac unname_state :=
  repeat match goal with x := mkU _ _ _ _ _ _ _ _ _ _ _ |- _ => subst x end.

Ltac inv_easy :=
  try done;
  try (unname_state; simpl; by rewrite ?length_insert);
  try (unname_state; simpl; unfold maxPreloadWorkersNum in *; lia).

Ltac inv_count Hw w0 :=
  let Hc := fresh "Hc" in
  unname_state; unfold uInFlight, semRelease in *; cbn [uWorkers uSem];
  pose proof (count_insert uHolding _ _ _ w0 Hw) as Hc;
  cbn [uHolding] in Hc; lia.

Ltac inv_bg_running Hbg Hw :=
  unname_state; simpl; destruct (uBg _); try done;
  [ destruct Hbg as [_ Hbg]; by rewrite Hbg in Hw
  | let Hall := fresh "Hall" in
    destruct Hbg as [_ Hall]; unfold allReturned in Hall;
    rewrite forallb_lookup in Hall; by apply Hall in Hw ].

Lemma uInv_step e s s' : uInv s → ustep e s = Some s' → uInv s'.
Proof.
  intros Hinv Hstep. pose proof Hinv as [Hlen Hnd Hsem Hle Hcap Hcnd Hcsel
    Hpnd Hpsel Hbuf Hws Hbg].
  destruct e as [k|k|k url rid|k err|k| | |]; simpl in Hstep.
  - (* UEvAcquire *)
    destruct (uWorkers s !! k) as [[]|] eqn:Hw; try done.
    unfold semTryAcquire in Hstep. case_decide as Hlt; [|done].
    simplify_eq. destruct (lookup_lt_is_Some_2 (uImages s) k) as [p Hp].
    { rewrite <- Hlen. by eapply lookup_lt_Some. }
    pose proof (uWorkerOK_sel _ _ _ _ Hinv Hp Hw) as Hok.
    name_state. split; inv_easy.
    + inv_count Hw UUpload.
    + eapply (uWorkers_update s s' k p UUpload [] []); eauto; simpl;
        try by rewrite app_nil_r.
      all: set_solver.
    + inv_bg_running Hbg Hw.
  - (* UEvAcquireErr *)
    destruct (uWorkers s !! k) as [[]|] eqn:Hw; try done.
    destruct (uImages s !! k) as [p|] eqn:Hp; [|done].
    destruct (uCtxDone s); [|done]. simplify_eq.
    pose proof (uWorkerOK_sel _ _ _ _ Hinv Hp Hw) as (Hc & Hpub & Hst).
    name_state. split; inv_easy.
    + inv_count Hw UAbandoned.
    + eapply (uWorkers_update s s' k p UAbandoned [] []); eauto; simpl;
        try (by rewrite app_nil_r); try set_solver.
      * intros q Hq. by apply stateOf_SetUploadResult_ne.
      * split_and!; [done..|].
        destruct (SetUploadResult_uploading p "" (Some ctxCanceled) _ Hst)
          as (i & ? & ? & ? & ?). by exists i.
    + inv_bg_running Hbg Hw.
  - (* UEvUploadOk *)
    destruct (uWorkers s !! k) as [[]|] eqn:Hw; try done.
    destruct (uImages s !! k) as [p|] eqn:Hp; [|done]. simplify_eq.
    pose proof (uWorkerOK_sel _ _ _ _ Hinv Hp Hw) as (Hc & Hpub & Hst).
    name_state. split; inv_easy.
    + inv_count Hw (UPublish url rid).
    + simpl. rewrite fmap_app. apply NoDup_app. split_and!; [done| |].
      * intros q Hq ->%list_elem_of_singleton. done.
      * apply NoDup_singleton.
    + simpl. intros c [Hin| ->%list_elem_of_singleton]%elem_of_app; [auto|].
      simpl. by eapply list_elem_of_lookup_2.
    + eapply (uWorkers_update s s' k p (UPublish url rid)
                [mkCall p (inl (url, rid))] []); eauto; simpl;
        try (by rewrite app_nil_r); try set_solver.
      * intros q Hq. by apply stateOf_SetUploadResult_ne.
      * split_and!; [set_solver|done|].
        destruct (SetUploadResult_uploading p url None _ Hst)
          as (i & ? & ? & ? & ?). by exists i.
    + inv_bg_running Hbg Hw.
  - (* UEvUploadErr *)
    destruct (uWorkers s !! k) as [[]|] eqn:Hw; try done.
    destruct (uImages s !! k) as [p|] eqn:Hp; [|done]. simplify_eq.
    pose proof (uWorkerOK_sel _ _ _ _ Hinv Hp Hw) as (Hc & Hpub & Hst).
    name_state. split; inv_easy.
    + inv_count Hw (UFailed err).
    + simpl. unfold semRelease, maxPreloadWorkersNum in *. lia.
    + simpl. rewrite fmap_app. apply NoDup_app. split_and!; [done| |].
      * intros q Hq ->%list_elem_of_singleton. done.
      * apply NoDup_singleton.
    + simpl. intros c [Hin| ->%list_elem_of_singleton]%elem_of_app; [auto|].
      simpl. by eapply list_elem_of_lookup_2.
    + eapply (uWorkers_update s s' k p (UFailed err)
                [mkCall p (inr err)] []); eauto; simpl;
        try (by rewrite app_nil_r); try set_solver.
      * intros q Hq. by apply stateOf_SetUploadResult_ne.
      * split_and!; [set_solver|done|].
        destruct (SetUploadResult_uploading p ""
                    (Some ("failed to upload image: " +:+ err)) _ Hst)
          as (i & ? & ? & ? & ?). by exists i.
    + inv_bg_running Hbg Hw.
  - (* UEvSend *)
    destruct (uWorkers s !! k) as [[| |url rid| | |]|] eqn:Hw; try done.
    destruct (uImages s !! k) as [p|] eqn:Hp; [|done].
    unfold chanSend in Hstep.
    destruct (chanClosed (uCh s)) eqn:Hcl; [done|].
    case_decide as Hroom; [|done]. simplify_eq.
    pose proof (uWorkerOK_sel _ _ _ _ Hinv Hp Hw) as (Hc & Hpub & Hst).
    name_state. split; inv_easy.
    + inv_count Hw UDone.
    + simpl. unfold semRelease, maxPreloadWorkersNum in *. lia.
    + simpl. rewrite fmap_app. apply NoDup_app. split_and!; [done| |].
      * intros q Hq ->%list_elem_of_singleton. done.
      * apply NoDup_singleton.
    + simpl. intros c [Hin| ->%list_elem_of_singleton]%elem_of_app; [auto|].
      simpl. by eapply list_elem_of_lookup_2.
    + simpl. by apply suffix_app.
    + eapply (uWorkers_update s s' k p UDone [] [mkInfo rid p]); eauto; simpl;
        try (by rewrite app_nil_r); try set_solver.
    + inv_bg_running Hbg Hw.
  - (* UEvClose *)
    destruct (uBg s) eqn:Hb; try done.
    unfold chanClose in Hstep. rewrite Hbg in Hstep.
    destruct (allReturned (uWorkers s)) eqn:Hall; [|done]. simplify_eq.
    name_state. split; inv_easy.
  - (* UEvCancel *)
    destruct (uCtxDone s); [done|]. simplify_eq.
    name_state. split; inv_easy.
  - (* UEvRecv *)
    unfold chanRecv in Hstep.
    destruct (chanBuf (uCh s)) as [|x rest] eqn:Hb.
    { by destruct (chanClosed (uCh s)). }
    simplify_eq. name_state. split; inv_easy.
    simpl. by eapply suffix_cons_l.
Qed.

Lemma urun_app evs1 evs2 s :
  urun (evs1 ++ evs2) s = urun evs1 s ≫= urun evs2.
Proof.
  revert s. induction evs1 as [|e evs1 IH]; intros s; simpl; [done|].
  destruct (ustep e s); simpl; auto.
Qed.

Lemma uInv_run evs s s' : uInv s → urun evs s = Some s' → uInv s'.
Proof.
  revert s. induction evs as [|e evs IH]; intros s Hinv Hrun; simpl in Hrun.
  - by simplify_eq.
  - destruct (ustep e s) as [s1|] eqn:Hstep; [|done].
    eapply IH; [|done]. by eapply uInv_step.
Qed.

Lemma uInv_reach Equivalent ctxDone h actions cur evs s :
  urun evs (startUploadingImages Equivalent ctxDone h actions cur) = Some s →
  uInv s.
Proof. apply uInv_run, uInv_start. Qed.

Lemma uImages_step e s s' : ustep e s = Some s' → uImages s' = uImages s.
Proof.
  destruct e; simpl; intros H; repeat case_match; by simplify_eq.
Qed.

Lemma uImages_run evs s s' : urun evs s = Some s' → uImages s' = uImages s.
Proof.
  revert s. induction evs as [|e evs IH]; intros s Hrun; simpl in Hrun.
  - by simplify_eq.
  - destruct (ustep e s) as [s1|] eqn:Hstep; [|done].
    rewrite (IH _ Hrun). by eapply uImages_step.
Qed.

Lemma uImages_start Equivalent ctxDone h actions cur :
  uImages (startUploadingImages Equivalent ctxDone h actions cur)
  = imagesToUpload Equivalent h actions cur.
Proof. unfold startUploadingImages. by case_decide. Qed.

(** Every move uses up some of the measure. *)
Lemma uMeasure_step e s s' :
  ustep e s = Some s' → uMeasure s' < uMeasure s.
Proof.
  unfold uMeasure.
  destruct e as [k|k|k url rid|k err|k| | |]; simpl; intros Hstep.
  - destruct (uWorkers s !! k) as [[]|] eqn:Hw; try done.
    destruct (semTryAcquire (uSem s)); [|done]. simplify_eq. simpl.
    pose proof (weight_insert uWeight _ _ _ UUpload Hw). simpl in *. lia.
  - destruct (uWorkers s !! k) as [[]|] eqn:Hw; try done.
    destruct (uImages s !! k); [|done].
    destruct (uCtxDone s); [|done]. simplify_eq. simpl.
    pose proof (weight_insert uWeight _ _ _ UAbandoned Hw). simpl in *. lia.
  - destruct (uWorkers s !! k) as [[]|] eqn:Hw; try done.
    destruct (uImages s !! k); [|done]. simplify_eq. simpl.
    pose proof (weight_insert uWeight _ _ _ (UPublish url rid) Hw).
    simpl in *. lia.
  - destruct (uWorkers s !! k) as [[]|] eqn:Hw; try done.
    destruct (uImages s !! k); [|done]. simplify_eq. simpl.
    pose proof (weight_insert uWeight _ _ _ (UFailed err) Hw).
    simpl in *. destruct (uCtxDone s); lia.
  - destruct (uWorkers s !! k) as [[]|] eqn:Hw; try done.
    destruct (uImages s !! k); [|done]. unfold chanSend in Hstep.
    destruct (chanClosed (uCh s)); [done|]. case_decide; [|done].
    simplify_eq. simpl. rewrite length_app. simpl.
    pose proof (weight_insert uWeight _ _ _ UDone Hw). simpl in *. lia.
  - destruct (uBg s); try done. unfold chanClose in Hstep.
    destruct (chanClosed (uCh s)); [done|].
    destruct (allReturned (uWorkers s)); [|done]. simplify_eq. simpl.
    destruct (uCtxDone s); lia.
  - destruct (uCtxDone s); [done|]. simplify_eq. simpl. lia.
  - unfold chanRecv in Hstep. destruct (chanBuf (uCh s)) eqn:Hb.
    + by destruct (chanClosed (uCh s)).
    + simplify_eq. simpl. lia.
Qed.

Lemma uMeasure_run evs s s' :
  urun evs s = Some s' → length evs + uMeasure s' ≤ uMeasure s.
Proof.
  revert s. induction evs as [|e evs IH]; intros s Hrun; simpl in Hrun.
  - simplify_eq. simpl. lia.
  - destruct (ustep e s) as [s1|] eqn:Hstep; [|done].
    apply IH in Hrun. apply uMeasure_step in Hstep. simpl. lia.
Qed.

(** Once the stream is closed, only the caller and the owner of the
    context can still move. *)
Lemma uClosed_step e s s' :
  uInv s → chanClosed (uCh s) = true → ustep e s = Some s' →
  uPublished s' = uPublished s ∧ chanClosed (uCh s') = true
  ∧ chanBuf (uCh s') `suffix_of` chanBuf (uCh s)
  ∧ uHeap s' = uHeap s ∧ uUploadCalls s' = uUploadCalls s
  ∧ uWorkers s' = uWorkers s.
Proof.
  intros Hinv Hcl Hstep. pose proof (inv_bg _ Hinv) as Hbg.
  assert (Hall : allReturned (uWorkers s) = true).
  { destruct (uBg s); [destruct Hbg as [_ ->]; done|congruence|tauto]. }
  unfold allReturned in Hall. rewrite forallb_lookup in Hall.
  destruct e as [k|k|k url rid|k err|k| | |]; simpl in Hstep.
  1-5: destruct (uWorkers s !! k) as [w|] eqn:Hw; [|done];
       apply Hall in Hw; destruct w; done.
  - destruct (uBg s); try done. congruence.
  - destruct (uCtxDone s); [done|]. by simplify_eq.
  - unfold chanRecv in Hstep. destruct (chanBuf (uCh s)) eqn:Hb.
    + by destruct (chanClosed (uCh s)).
    + simplify_eq. simpl. split_and!; try done. by apply suffix_cons_r.
Qed.

Lemma uClosed_run evs s s' :
  uInv s → chanClosed (uCh s) = true → urun evs s = Some s' →
  uPublished s' = uPublished s ∧ chanClosed (uCh s') = true
  ∧ chanBuf (uCh s') `suffix_of` chanBuf (uCh s)
  ∧ uHeap s' = uHeap s ∧ uUploadCalls s' = uUploadCalls s
  ∧ uWorkers s' = uWorkers s.
Proof.
  revert s. induction evs as [|e evs IH]; intros s Hinv Hcl Hrun;
    simpl in Hrun.
  - by simplify_eq.
  - destruct (ustep e s) as [s1|] eqn:Hstep; [|done].
    destruct (uClosed_step _ _ _ Hinv Hcl Hstep)
      as (Hp & Hcl1 & Hsuf & Hh & Hc & Hw).
    destruct (IH s1) as (Hp' & Hcl' & Hsuf' & Hh' & Hc' & Hw');
      [by eapply uInv_step|done|done|].
    split_and!; try congruence. by etrans.
Qed.

Lemma forallb_false_lookup {A} (f : A → bool) (l : list A) :
  forallb f l = false → ∃ k x, l !! k = Some x ∧ f x = false.
Proof.
  induction l as [|a l IH]; simpl; [done|].
  destruct (f a) eqn:Ha; simpl.
  - intros (k & x & Hk & Hx)%IH. by exists (S k), x.
  - intros _. by exists 0, a.
Qed.

Lemma count_pos_lookup {A} (f : A → bool) (l : list A) :
  0 < length (filter (λ a, f a = true) l) →
  ∃ k x, l !! k = Some x ∧ f x = true.
Proof.
  destruct (filter _ l) as [|x l'] eqn:Hf; simpl; [lia|]. intros _.
  assert (Hx : x ∈ filter (λ a, f a = true) l) by (rewrite Hf; left).
  apply list_elem_of_filter in Hx as [Hx Hin].
  apply list_elem_of_lookup in Hin as [k Hk]. eauto.
Qed.

(** The send of a worker that holds a result finds room in the buffer. *)
Lemma uSend_enabled s k url rid :
  uInv s → uWorkers s !! k = Some (UPublish url rid) →
  ∃ p, uImages s !! k = Some p
       ∧ chanSend (mkInfo rid p) (uCh s)
         = Some (mkChan (chanCap (uCh s))
                        (chanBuf (uCh s) ++ [mkInfo rid p]) false).
Proof.
  intros Hinv Hw.
  destruct (lookup_lt_is_Some_2 (uImages s) k) as [p Hp].
  { rewrite <- (inv_len _ Hinv). by eapply lookup_lt_Some. }
  exists p. split; [done|].
  destruct (inv_workers _ Hinv _ _ _ Hp Hw) as (_ & Hpub & _).
  unfold chanSend.
  assert (chanClosed (uCh s) = false) as ->.
  { pose proof (inv_bg _ Hinv) as Hbg. destruct (uBg s); [| done |].
    - destruct Hbg as [_ Hnil]. by rewrite Hnil in Hw.
    - destruct Hbg as [_ Hall]. unfold allReturned in Hall.
      rewrite forallb_lookup in Hall. by apply Hall in Hw. }
  rewrite decide_True; [done|].
  pose proof (suffix_length _ _ (inv_buf _ Hinv)) as Hlen.
  assert (p :: (image <$> uPublished s) ⊆+ uImages s) as Hsub.
  { apply NoDup_submseteq.
    - constructor; [done|apply (inv_pub_nodup _ Hinv)].
    - intros q [->|(i & -> & Hi)%list_elem_of_fmap]%elem_of_cons.
      + by eapply list_elem_of_lookup_2.
      + by apply (inv_pub_sel _ Hinv). }
  apply submseteq_length in Hsub. simpl in Hsub.
  rewrite length_fmap in Hsub. rewrite (inv_cap _ Hinv). lia.
Qed.

(** While the background goroutine runs, one of its goroutines can move,
    whatever the caller does. *)
Lemma uProgress s :
  uInv s → uBg s = BgRunning →
  ∃ e, uInternal e = true ∧ is_Some (ustep e s).
Proof.
  intros Hinv Hb. pose proof (inv_bg _ Hinv) as Hbg. rewrite Hb in Hbg.
  assert (Hheld : ∀ k w, uWorkers s !! k = Some w → uHolding w = true →
            ∃ e, uInternal e = true ∧ is_Some (ustep e s)).
  { intros k w Hw Hh. destruct w; try done.
    - destruct (lookup_lt_is_Some_2 (uImages s) k) as [p Hp].
      { rewrite <- (inv_len _ Hinv). by eapply lookup_lt_Some. }
      exists (UEvUploadOk k "" ""). split; [done|]. simpl.
      by rewrite Hw, Hp.
    - destruct (uSend_enabled _ _ _ _ Hinv Hw) as (p & Hp & Hs).
      exists (UEvSend k). split; [done|]. simpl. by rewrite Hw, Hp, Hs. }
  destruct (allReturned (uWorkers s)) eqn:Hall.
  - exists UEvClose. split; [done|]. simpl. unfold chanClose.
    by rewrite Hb, Hbg, Hall.
  - apply forallb_false_lookup in Hall as (k & w & Hw & Hret).
    destruct (uHolding w) eqn:Hh; [by eapply Hheld|].
    destruct w; try done.
    destruct (semTryAcquire (uSem s)) as [cur'|] eqn:Hs.
    + exists (UEvAcquire k). split; [done|]. simpl. by rewrite Hw, Hs.
    + unfold semTryAcquire in Hs. case_decide as Hlt; [done|].
      destruct (count_pos_lookup uHolding (uWorkers s)) as (k' & w' & ? & ?).
      { pose proof (inv_sem _ Hinv) as Hsem. unfold uInFlight in Hsem.
        unfold maxPreloadWorkersNum in *. lia. }
      by eapply Hheld.
Qed.

(** Two entries of a list that agree under a key without duplicates are
    the same entry. *)
Lemma NoDup_fmap_elem_eq {A B} (f : A → B) (l : list A) x y :
  NoDup (f <$> l) → x ∈ l → y ∈ l → f x = f y → x = y.
Proof.
  intros Hnd [i Hi]%list_elem_of_lookup [j Hj]%list_elem_of_lookup Hxy.
  assert (i = j) as ->; [|congruence].
  apply (NoDup_lookup _ i j (f x) Hnd); rewrite list_lookup_fmap.
  - by rewrite Hi.
  - rewrite Hj. simpl. by rewrite Hxy.
Qed.

Lemma filter_key_none {A B} `{EqDecision B} (f : A → B) (l : list A) b :
  b ∉ f <$> l → filter (λ y, f y = b) l = [].
Proof.
  induction l as [|a l IH]; simpl; [done|].
  intros [Ha Hl]%not_elem_of_cons.
  rewrite filter_cons_False by done. auto.
Qed.

Lemma filter_key_unique {A B} `{EqDecision B} (f : A → B) (l : list A) x :
  NoDup (f <$> l) → x ∈ l → filter (λ y, f y = f x) l = [x].
Proof.
  induction l as [|a l IH]; simpl; [by intros _ ?%elem_of_nil|].
  intros [Ha Hnd]%NoDup_cons [->|Hx]%elem_of_cons.
  - rewrite filter_cons_True by done. f_equal. by apply filter_key_none.
  - rewrite filter_cons_False; [by apply IH|].
    intros Heq. apply Ha. rewrite Heq. by apply list_elem_of_fmap_2.
Qed.

Lemma filter_key_le1 {A B} `{EqDecision B} (f : A → B) (l : list A) b :
  NoDup (f <$> l) → length (filter (λ y, f y = b) l) ≤ 1.
Proof.
  intros Hnd. destruct (decide (b ∈ f <$> l)) as [Hin|Hout].
  - apply list_elem_of_fmap in Hin as (x & -> & Hx).
    rewrite (filter_key_unique f l x) by done. simpl. lia.
  - rewrite filter_key_none by done. simpl. lia.
Qed.

Section UploadClaims.

Variable Equivalent : store → option ptr → ptr → bool.

Variables (ctxDone : bool) (h : store) (actions : list action).

Variable cur : gmap Z currentImageData.

Let s0 := startUploadingImages Equivalent ctxDone h actions cur.

Let selected := imagesToUpload Equivalent h actions cur.

(** C1 (as amended).  In every execution of [startUploadingImages] the
    selected images are pairwise distinct image objects, every backend
    upload call and every completion event is for a selected image, and
    each image object is the subject of at most one upload call and of at
    most one completion event.  The duplicate test of the selection
    compares pointers, not content. *)
Theorem each_image_object_uploaded_at_most_once evs s :
  urun evs s0 = Some s →
  NoDup selected
  ∧ (∀ c, c ∈ uUploadCalls s → callImage c ∈ selected)
  ∧ (∀ i, i ∈ uPublished s → image i ∈ selected)
  ∧ ∀ p, length (uploadsOf p s) ≤ 1 ∧ length (eventsFor p s) ≤ 1.
Proof.
  intros Hrun. pose proof (uInv_reach _ _ _ _ _ _ _ Hrun) as Hinv.
  pose proof (uImages_run _ _ _ Hrun) as Himg.
  unfold s0 in Himg. rewrite uImages_start in Himg. fold selected in Himg.
  rewrite <- Himg. split_and!.
  - apply (inv_nodup _ Hinv).
  - apply (inv_calls_sel _ Hinv).
  - apply (inv_pub_sel _ Hinv).
  - intros p. split; apply filter_key_le1.
    + apply (inv_calls_nodup _ Hinv).
    + apply (inv_pub_nodup _ Hinv).
Qed.

(** C4.  For every selected image, in every execution: at most one
    completion event is ever sent for it; an event is sent only after its
    backend upload returned successfully, and carries the resource ID that
    upload returned; once the stream is closed, a successful upload has
    exactly one event (and the image is Uploaded with the public URL); a
    failed upload has no event, and its error is recorded on the image,
    which is Failed. *)
Theorem event_iff_upload_succeeded evs s p :
  urun evs s0 = Some s → p ∈ selected →
  length (eventsFor p s) ≤ 1
  ∧ (∀ i, i ∈ eventsFor p s →
       ∃ url, mkCall p (inl (url, resourceID i)) ∈ uUploadCalls s)
  ∧ (chanClosed (uCh s) = true →
     ∀ url rid, mkCall p (inl (url, rid)) ∈ uUploadCalls s →
       eventsFor p s = [mkInfo rid p]
       ∧ imageIs (uHeap s) p Uploaded url None)
  ∧ (∀ err, mkCall p (inr err) ∈ uUploadCalls s →
       eventsFor p s = []
       ∧ imageIs (uHeap s) p Failed ""
           (Some ("failed to upload image: " +:+ err))).
Proof.
  intros Hrun Hsel. pose proof (uInv_reach _ _ _ _ _ _ _ Hrun) as Hinv.
  pose proof (uImages_run _ _ _ Hrun) as Himg.
  unfold s0 in Himg. rewrite uImages_start in Himg. fold selected in Himg.
  rewrite <- Himg in Hsel.
  apply list_elem_of_lookup in Hsel as [k Hk].
  destruct (lookup_lt_is_Some_2 (uWorkers s) k) as [w Hw].
  { rewrite (inv_len _ Hinv). by eapply lookup_lt_Some. }
  pose proof (inv_workers _ Hinv _ _ _ Hk Hw) as Hok.
  pose proof (inv_calls_nodup _ Hinv) as Hcnd.
  pose proof (inv_pub_nodup _ Hinv) as Hpnd.
  assert (Hcall : ∀ c1 c2, c1 ∈ uUploadCalls s → c2 ∈ uUploadCalls s →
            callImage c1 = callImage c2 → c1 = c2).
  { intros. by eapply (NoDup_fmap_elem_eq callImage). }
  assert (Hnone : (p ∉ image <$> uPublished s) → eventsFor p s = []).
  { intros Hp. by apply filter_key_none. }
  split_and!.
  - by apply filter_key_le1.
  - intros [rid' q] [Hq Hi]%list_elem_of_filter. simpl in Hq. subst q.
    simpl. destruct w; simpl in Hok.
    1-5: destruct Hok as (_ & Hpub & _); exfalso; apply Hpub;
         by apply (list_elem_of_fmap_2 image) in Hi.
    destruct Hok as (url & rid & Hc & Hp & _). exists url.
    assert (mkInfo rid' p = mkInfo rid p) as [= ->]; [|done].
    by eapply (NoDup_fmap_elem_eq image).
  - intros Hcl url rid Hc.
    pose proof (inv_bg _ Hinv) as Hbg.
    assert (Hall : allReturned (uWorkers s) = true).
    { destruct (uBg s); [destruct Hbg as [_ ->]; done|congruence|tauto]. }
    unfold allReturned in Hall. rewrite forallb_lookup in Hall.
    pose proof (Hall _ _ Hw) as Hret.
    destruct w; try done; simpl in Hok.
    + destruct Hok as (Hno & _). exfalso. apply Hno.
      by apply (list_elem_of_fmap_2 callImage) in Hc.
    + destruct Hok as (Hc' & _).
      by specialize (Hcall _ _ Hc Hc' eq_refl).
    + destruct Hok as (url' & rid' & Hc' & Hp & Him).
      specialize (Hcall _ _ Hc Hc' eq_refl). simplify_eq.
      split; [|done]. unfold eventsFor.
      by apply (filter_key_unique image _ (mkInfo rid' p)).
  - intros err Hc. destruct w; simpl in Hok.
    1,2,4: destruct Hok as (Hno & _); exfalso; apply Hno;
           by apply (list_elem_of_fmap_2 callImage) in Hc.
    + destruct Hok as (Hc' & _). by specialize (Hcall _ _ Hc Hc' eq_refl).
    + destruct Hok as (Hc' & Hpub & Him).
      specialize (Hcall _ _ Hc Hc' eq_refl). simplify_eq. auto.
    + destruct Hok as (url' & rid' & Hc' & _).
      by specialize (Hcall _ _ Hc Hc' eq_refl).
Qed.

(** C5.  When the completion stream is closed, every worker has returned
    and every selected image is in a terminal state: Uploaded, Failed with
    the upload error, or Failed with the cancellation error when the
    limiter never admitted it.  From then on no event is sent any more:
    the events published stay the same, the stream stays closed and its
    buffer only shrinks. *)
Theorem close_only_after_every_upload_attempted evs s :
  urun evs s0 = Some s → chanClosed (uCh s) = true →
  (∀ k p, selected !! k = Some p →
     terminal (uHeap s) p = true
     ∧ ∃ w, uWorkers s !! k = Some w ∧ uReturned w = true
            ∧ match w with
              | UDone => stateOf (uHeap s) p = Some Uploaded
              | UFailed err =>
                  imageIs (uHeap s) p Failed ""
                    (Some ("failed to upload image: " +:+ err))
              | UAbandoned =>
                  imageIs (uHeap s) p Failed "" (Some ctxCanceled)
              | _ => False
              end)
  ∧ ∀ evs' s', urun evs' s = Some s' →
      uPublished s' = uPublished s ∧ chanClosed (uCh s') = true
      ∧ chanBuf (uCh s') `suffix_of` chanBuf (uCh s)
      ∧ uHeap s' = uHeap s.
Proof.
  intros Hrun Hcl. pose proof (uInv_reach _ _ _ _ _ _ _ Hrun) as Hinv.
  pose proof (uImages_run _ _ _ Hrun) as Himg.
  unfold s0 in Himg. rewrite uImages_start in Himg. fold selected in Himg.
  split.
  - intros k p Hk. rewrite <- Himg in Hk.
    destruct (lookup_lt_is_Some_2 (uWorkers s) k) as [w Hw].
    { rewrite (inv_len _ Hinv). by eapply lookup_lt_Some. }
    pose proof (inv_workers _ Hinv _ _ _ Hk Hw) as Hok.
    pose proof (inv_bg _ Hinv) as Hbg.
    assert (Hall : allReturned (uWorkers s) = true).
    { destruct (uBg s); [destruct Hbg as [_ ->]; done|congruence|tauto]. }
    unfold allReturned in Hall. rewrite forallb_lookup in Hall.
    pose proof (Hall _ _ Hw) as Hret.
    assert (Hterm : ∀ st url err, imageIs (uHeap s) p st url err →
              st = Uploaded ∨ st = Failed → terminal (uHeap s) p = true).
    { intros st url err (i & Hi & Hst & _) Hor. unfold terminal.
      rewrite Hi, Hst. destruct Hor as [-> | ->]; done. }
    destruct w; try done; simpl in Hok.
    + destruct Hok as (_ & _ & Him). split; [eapply Hterm; eauto|].
      exists UAbandoned. by split_and!.
    + destruct Hok as (_ & _ & Him). split; [eapply Hterm; eauto|].
      exists (UFailed err). by split_and!.
    + destruct Hok as (url & rid & _ & _ & Him).
      split; [eapply Hterm; eauto|].
      exists UDone. split_and!; try done.
      destruct Him as (i & Hi & Hst & _). unfold stateOf.
      by rewrite Hi, <- Hst.
  - intros evs' s' Hrun'.
    destruct (uClosed_run _ _ _ Hinv Hcl Hrun') as (? & ? & ? & ? & _).
    done.
Qed.

(** C7.  In the state in which [startUploadingImages] returns, before
    any goroutine has made a move (every worker still at the limiter, no
    upload call, no event, no permit out), every selected image has gone
    from Needed to Uploading; and in every later state no selected image
    needs an upload. *)
Theorem claimed_before_any_task_starts :
  (∀ p, p ∈ selected →
     stateOf h p = Some Needed ∧ stateOf (uHeap s0) p = Some Uploading)
  ∧ uWorkers s0 = replicate (length selected) UAcquire
  ∧ uUploadCalls s0 = [] ∧ uPublished s0 = [] ∧ uSem s0 = 0
  ∧ ∀ evs s p,
      urun evs s0 = Some s → p ∈ selected →
      IsUploadNeeded (uHeap s) p = false.
Proof.
  destruct (imagesToUpload_ok Equivalent h cur actions) as [Hnd Hneed].
  fold selected in Hnd, Hneed.
  split_and!.
  - intros p Hp. pose proof (Hneed _ Hp) as Hn.
    apply IsUploadNeeded_stateOf in Hn. split; [done|].
    unfold s0, startUploadingImages. fold selected.
    case_decide as Hlen.
    + apply length_zero_iff_nil in Hlen. rewrite Hlen in Hp.
      by apply elem_of_nil in Hp.
    + simpl. rewrite stateOf_claimed. by rewrite decide_True.
  - unfold s0, startUploadingImages. fold selected.
    case_decide as Hlen; [|done]. by rewrite Hlen.
  - unfold s0, startUploadingImages. by case_decide.
  - unfold s0, startUploadingImages. by case_decide.
  - unfold s0, startUploadingImages. by case_decide.
  - intros evs s p Hrun Hp.
    pose proof (uInv_reach _ _ _ _ _ _ _ Hrun) as Hinv.
    pose proof (uImages_run _ _ _ Hrun) as Himg.
    unfold s0 in Himg. rewrite uImages_start in Himg. fold selected in Himg.
    rewrite <- Himg in Hp. apply list_elem_of_lookup in Hp as [k Hk].
    destruct (lookup_lt_is_Some_2 (uWorkers s) k) as [w Hw].
    { rewrite (inv_len _ Hinv). by eapply lookup_lt_Some. }
    pose proof (inv_workers _ Hinv _ _ _ Hk Hw) as Hok.
    destruct (IsUploadNeeded (uHeap s) p) eqn:Hn; [|done].
    apply IsUploadNeeded_stateOf in Hn. unfold stateOf in Hn.
    destruct w; simpl in Hok.
    1,2: destruct Hok as (_ & _ & Hst); unfold stateOf in Hst; congruence.
    1-3: destruct Hok as (_ & _ & i & Hi & Hst & _); rewrite Hi in Hn;
         simpl in Hn; congruence.
    destruct Hok as (? & ? & _ & _ & i & Hi & Hst & _); rewrite Hi in Hn;
      simpl in Hn; congruence.
Qed.

(** C8.  When nothing is selected, [startUploadingImages] returns a
    stream that is closed and empty, so that a receive reports "closed" at
    once; there is no background goroutine and no worker, the images are
    untouched, no goroutine of the stage can ever move, and nothing is
    ever uploaded or published. *)
Theorem empty_selection_returns_closed_stream :
  selected = [] →
  chanClosed (uCh s0) = true ∧ chanBuf (uCh s0) = []
  ∧ chanRecv (uCh s0) = RecvClosed ∧ rangeChan (uCh s0) = Some []
  ∧ uBg s0 = BgNone ∧ uWorkers s0 = [] ∧ uHeap s0 = h
  ∧ (∀ e, uInternal e = true → ustep e s0 = None)
  ∧ ∀ evs s,
      urun evs s0 = Some s →
      uPublished s = [] ∧ chanRecv (uCh s) = RecvClosed
      ∧ uUploadCalls s = [] ∧ uHeap s = h.
Proof.
  intros Hsel.
  assert (Hs0 : s0 = mkU [] h [] 0 ctxDone None (mkChan 0 [] true) BgNone
                         [] [] None).
  { unfold s0, startUploadingImages. fold selected. by rewrite Hsel. }
  rewrite Hs0. split_and!; try done.
  - by intros [].
  - intros evs s Hrun.
    assert (Hinv : uInv s0) by apply uInv_start. rewrite Hs0 in Hinv.
    destruct (uClosed_run _ _ _ Hinv eq_refl Hrun)
      as (Hp & Hcl & Hsuf & Hh & Hc & _). simpl in *.
    split_and!; try done. unfold chanRecv.
    apply suffix_nil_inv in Hsuf. by rewrite Hsuf, Hcl.
Qed.

Lemma uWeight_replicate n :
  sum_list (uWeight <$> replicate n UAcquire) = 4 * n.
Proof. rewrite fmap_replicate, sum_list_replicate. simpl. lia. Qed.

(** C10.  The completion channel has as many buffer slots as there are
    selected images; a worker that holds a result can always send it; every
    execution has at most [4 * n + 2] moves; and as long as the stream is
    not closed, one of the goroutines of the stage can move without the
    caller receiving anything.  So the background goroutine always ends
    and closes the stream. *)
Theorem buffered_stream_never_blocks evs s :
  urun evs s0 = Some s →
  chanCap (uCh s0) = length selected
  ∧ chanCap (uCh s) = length selected
  ∧ (∀ k url rid, uWorkers s !! k = Some (UPublish url rid) →
       is_Some (ustep (UEvSend k) s))
  ∧ length evs + uMeasure s ≤ uMeasure s0
  ∧ uMeasure s0 ≤ 4 * length selected + 2
  ∧ (chanClosed (uCh s) = false →
     ∃ e, uInternal e = true ∧ is_Some (ustep e s)).
Proof.
  intros Hrun. pose proof (uInv_reach _ _ _ _ _ _ _ Hrun) as Hinv.
  pose proof (uImages_run _ _ _ Hrun) as Himg.
  unfold s0 in Himg. rewrite uImages_start in Himg. fold selected in Himg.
  split_and!.
  - unfold s0, startUploadingImages. fold selected. by case_decide.
  - by rewrite (inv_cap _ Hinv), Himg.
  - intros k url rid Hw.
    destruct (uSend_enabled _ _ _ _ Hinv Hw) as (p & Hp & Hs).
    simpl. by rewrite Hw, Hp, Hs.
  - by apply uMeasure_run.
  - unfold s0, startUploadingImages, uMeasure. fold selected.
    case_decide as Hlen; simpl.
    + destruct ctxDone; lia.
    + rewrite uWeight_replicate. destruct ctxDone; lia.
  - intros Hcl. apply uProgress; [done|].
    pose proof (inv_bg _ Hinv) as Hbg.
    destruct (uBg s); [|done|]; destruct Hbg; congruence.
Qed.

End UploadClaims.




















Lemma pInv_start descr slides ctxDone actions s0 :
  preloadCurrentImages descr slides ctxDone actions = Some s0 → pInv s0.
Proof.
  unfold preloadCurrentImages.
  destruct (collectImagesToPreload descr slides actions) as [todo|]; [|done].
  case_decide as Hlen; intros [= <-].
  - split; simpl; try done; try (unfold maxPreloadWorkersNum; lia).
    split; [done|]. right. exists []. split_and!; try done.
  - split; simpl; try done; try (unfold maxPreloadWorkersNum; lia).
    + by rewrite length_replicate.
    + unfold pInFlight. simpl. symmetry. apply count_zero_forall.
      apply forallb_lookup. by intros k x [-> _]%lookup_replicate.
    + split; simpl; try done.
      * constructor.
      * by intros r ?%elem_of_nil.
      * intros k t w _ [-> _]%lookup_replicate. simpl. set_solver.
      * by intros _ k w [-> _]%lookup_replicate.
Qed.

Lemma pWorkerOK_frame s s' k t w rs :
  pHeap s' !! k = pHeap s !! k →
  chanBuf (pCh s') = chanBuf (pCh s) ++ rs → (Some k ∉ resImage <$> rs) →
  (is_Some (pErr s) → is_Some (pErr s')) →
  pWorkerOK s k t w → pWorkerOK s' k t w.
Proof.
  intros Hh Hb Hrs He. unfold pWorkerOK, linked. rewrite Hh, Hb, !fmap_app.
  destruct w; repeat setoid_rewrite elem_of_app; naive_solver.
Qed.

Lemma egRecord_is_Some old e : is_Some (egRecord old e).
Proof. destruct old; simpl; eauto. Qed.

Lemma pWorkers_update s s' k0 t0 w0 rs :
  pRunning s → length (pWorkers s) = length (pTodo s) →
  pTodo s' = pTodo s →
  pWorkers s' = <[k0 := w0]> (pWorkers s) →
  pTodo s !! k0 = Some t0 →
  (∀ k, k ≠ k0 → pHeap s' !! k = pHeap s !! k) →
  chanBuf (pCh s') = chanBuf (pCh s) ++ rs →
  (∀ r, r ∈ rs → resImage r = Some k0) →
  (is_Some (pErr s) → is_Some (pErr s')) →
  pWorkerOK s' k0 t0 w0 →
  ∀ k t w,
    pTodo s' !! k = Some t → pWorkers s' !! k = Some w → pWorkerOK s' k t w.
Proof.
  intros Hrun Hlen Htodo Hws Hk0 Hheap Hbuf Hrs Herr Hnew k t w Hk Hw.
  rewrite Htodo in Hk. rewrite Hws in Hw.
  destruct (decide (k = k0)) as [->|Hne].
  - rewrite list_lookup_insert_eq in Hw.
    + by simplify_eq.
    + rewrite Hlen. by eapply lookup_lt_Some.
  - rewrite list_lookup_insert_ne in Hw by done.
    eapply (pWorkerOK_frame s); eauto using run_workers.
    intros (r & Hr & Hin)%list_elem_of_fmap. apply Hrs in Hin. congruence.
Qed.

Lemma failed_insert_none (ws : list pworker) k0 w0 :
  (∀ k w, ws !! k = Some w → pFailedWorker w = false) →
  pFailedWorker w0 = false →
  ∀ k w, <[k0 := w0]> ws !! k = Some w → pFailedWorker w = false.
Proof.
  intros Hws Hw0 k w Hk. destruct (decide (k = k0)) as [->|Hne].
  - destruct (decide (k0 < length ws)).
    + rewrite list_lookup_insert_eq in Hk by done. by simplify_eq.
    + rewrite list_insert_ge in Hk by lia. eauto.
  - rewrite list_lookup_insert_ne in Hk by done. eauto.
Qed.

Lemma failed_insert_keep (ws : list pworker) k0 w0 wold :
  ws !! k0 = Some wold → pFailedWorker wold = false →
  (∃ k w, ws !! k = Some w ∧ pFailedWorker w = true) →
  ∃ k w, <[k0 := w0]> ws !! k = Some w ∧ pFailedWorker w = true.
Proof.
  intros Hold Hnf (k & w & Hk & Hw). exists k, w. split; [|done].
  rewrite list_lookup_insert_ne; [done|]. intros ->. congruence.
Qed.

Lemma failed_insert_new (ws : list pworker) k0 w0 wold :
  ws !! k0 = Some wold → pFailedWorker w0 = true →
  ∃ k w, <[k0 := w0]> ws !! k = Some w ∧ pFailedWorker w = true.
Proof.
  intros Hold Hf. exists k0, w0. split; [|done].
  apply list_lookup_insert_eq. by eapply lookup_lt_Some.
Qed.

Lemma allResults_lookup todo k :
  allResults todo !! k = resultOf k <$> todo !! k.
Proof. unfold allResults. apply list_lookup_imap. Qed.

Lemma allResults_elem todo r :
  r ∈ allResults todo ↔ ∃ k t, todo !! k = Some t ∧ r = resultOf k t.
Proof.
  rewrite list_elem_of_lookup. setoid_rewrite allResults_lookup. split.
  - intros (k & Hk). destruct (todo !! k) as [t|] eqn:Ht; simplify_eq/=.
    eauto.
  - intros (k & t & Ht & ->). exists k. by rewrite Ht.
Qed.

Lemma allResults_NoDup todo : NoDup (resImage <$> allResults todo).
Proof.
  apply NoDup_alt. intros i j x. rewrite !list_lookup_fmap, !allResults_lookup.
  destruct (todo !! i), (todo !! j); simpl; congruence.
Qed.

Ltac pname_state :=
  match goal with |- pInv ?x => set (s' := x) end.

Ltac punname_state :=
  repeat match goal with x := mkP _ _ _ _ _ _ _ _ |- _ => subst x end.

Ltac pinv_easy :=
  try done;
  try (punname_state; simpl; by rewrite ?length_insert);
  try (punname_state; simpl; unfold semRelease, maxPreloadWorkersNum in *; lia).

Ltac pinv_count Hw w0 :=
  let Hc := fresh "Hc" in
  punname_state; unfold pInFlight, semRelease in *; cbn [pWorkers pSem];
  match goal with
  | |- context [<[_ := ?w]> _] =>
      pose proof (count_insert pHolding _ _ _ w Hw) as Hc
  end;
  cbn [pHolding] in Hc; lia.

Lemma pInv_step e s s' : pInv s → pstep e s = Some s' → pInv s'.
Proof.
  intros Hinv Hstep. pose proof Hinv as [Hlen Hsem Hle Hout Herr].
  unfold pstep in Hstep. destruct (pOutcome s) eqn:Ho; [done|].
  pose proof Hout as [Hcap Hopen Hnd Hbuf Hws Hnone].
  destruct e as [k|k|k img|k err|k| |].
  - (* PEvAcquire *)
    destruct (pWorkers s !! k) as [[]|] eqn:Hw; try done.
    unfold semTryAcquire in Hstep. case_decide as Hlt; [|done].
    simplify_eq. destruct (lookup_lt_is_Some_2 (pTodo s) k) as [t Ht].
    { rewrite <- Hlen. by eapply lookup_lt_Some. }
    pose proof (Hws _ _ _ Ht Hw) as Hok.
    pname_state. split; pinv_easy.
    + pinv_count Hw PFetch.
    + simpl. split; pinv_easy.
      * eapply (pWorkers_update s s' k t PFetch []); eauto; simpl;
          try (by rewrite app_nil_r); set_solver.
      * simpl. intros He. by apply failed_insert_none; [apply Hnone|].
    + simpl. intros He. eapply failed_insert_keep; eauto.
  - (* PEvAcquireErr *)
    destruct (pWorkers s !! k) as [[]|] eqn:Hw; try done.
    destruct (pCtxDone s); [|done]. simplify_eq.
    destruct (lookup_lt_is_Some_2 (pTodo s) k) as [t Ht].
    { rewrite <- Hlen. by eapply lookup_lt_Some. }
    pose proof (Hws _ _ _ Ht Hw) as Hok.
    pname_state. split; pinv_easy.
    + pinv_count Hw PAbandoned.
    + simpl. split; pinv_easy.
      * eapply (pWorkers_update s s' k t PAbandoned []); eauto; simpl;
          try (by rewrite app_nil_r); try set_solver.
        -- intros _. apply egRecord_is_Some.
        -- split; [done|apply egRecord_is_Some].
      * simpl. intros He. destruct (pErr s); done.
    + simpl. intros _. by eapply failed_insert_new.
  - (* PEvFetchOk *)
    destruct (pWorkers s !! k) as [[]|] eqn:Hw; try done.
    destruct (pTodo s !! k) as [t|] eqn:Ht; [|done]. simplify_eq.
    pose proof (Hws _ _ _ Ht Hw) as Hok.
    pname_state. split; pinv_easy.
    + pinv_count Hw (PSend k).
    + simpl. split; pinv_easy.
      * eapply (pWorkers_update s s' k t (PSend k) []); eauto; simpl;
          try (by rewrite app_nil_r); try set_solver.
        -- intros k' Hk'. by rewrite lookup_insert_ne.
        -- split_and!; [done..|]. eexists. by rewrite lookup_insert_eq.
      * simpl. intros He. by apply failed_insert_none; [apply Hnone|].
    + simpl. intros He. eapply failed_insert_keep; eauto.
  - (* PEvFetchErr *)
    destruct (pWorkers s !! k) as [[]|] eqn:Hw; try done.
    destruct (pTodo s !! k) as [t|] eqn:Ht; [|done]. simplify_eq.
    pose proof (Hws _ _ _ Ht Hw) as Hok.
    pname_state. split; pinv_easy.
    + pinv_count Hw (PFailed err).
    + simpl. split; pinv_easy.
      * eapply (pWorkers_update s s' k t (PFailed _) []); eauto; simpl;
          try (by rewrite app_nil_r); try set_solver.
        -- intros _. apply egRecord_is_Some.
        -- split; [done|apply egRecord_is_Some].
      * simpl. intros He. destruct (pErr s); done.
    + simpl. intros _. by eapply failed_insert_new.
  - (* PEvSend *)
    destruct (pWorkers s !! k) as [[| |img| | |]|] eqn:Hw; try done.
    destruct (pTodo s !! k) as [t|] eqn:Ht; [|done].
    unfold chanSend in Hstep. rewrite Hopen in Hstep.
    case_decide as Hroom; [|done]. simplify_eq.
    pose proof (Hws _ _ _ Ht Hw) as (-> & Hnew & Hlink).
    fold (resultOf k t) in *.
    pname_state. split; pinv_easy.
    + pinv_count Hw PDone.
    + simpl. split; pinv_easy.
      * simpl. rewrite fmap_app. apply NoDup_app. split_and!; [done| |].
        -- intros q Hq ->%list_elem_of_singleton. done.
        -- apply NoDup_singleton.
      * simpl. intros r [Hr| ->%list_elem_of_singleton]%elem_of_app; eauto.
      * eapply (pWorkers_update s s' k t PDone [resultOf k t]); eauto; simpl;
          try (by rewrite app_nil_r); try set_solver.
      * simpl. intros He. by apply failed_insert_none; [apply Hnone|].
    + simpl. intros He. eapply failed_insert_keep; eauto.
  - (* PEvCancel *)
    destruct (pCtxDone s); [done|]. simplify_eq.
    pname_state. split; pinv_easy.
  - (* PEvWait *)
    destruct (pAllReturned (pWorkers s)) eqn:Hall; [|done].
    destruct (pErr s) as [err|] eqn:He.
    + simplify_eq. pname_state. split; pinv_easy.
      simpl. split; [done|]. left. exists err. split_and!; eauto.
    + unfold chanClose in Hstep. rewrite Hopen in Hstep. simpl in Hstep.
      simplify_eq. pname_state. split; pinv_easy.
      simpl. split; [done|]. right. exists (chanBuf (pCh s)).
        unfold pAllReturned in Hall. rewrite forallb_lookup in Hall.
        assert (Hdone : ∀ k w, pWorkers s !! k = Some w → w = PDone).
        { intros k w Hw. pose proof (Hall _ _ Hw).
          pose proof (Hnone eq_refl _ _ Hw). by destruct w. }
      split_and!; try done.
      * apply NoDup_Permutation.
        -- by eapply NoDup_fmap_1.
        -- eapply NoDup_fmap_1, allResults_NoDup.
        -- intros r. rewrite allResults_elem. split; [by apply Hbuf|].
              intros (k & t & Ht & ->).
              destruct (lookup_lt_is_Some_2 (pWorkers s) k) as [w Hw].
              { rewrite Hlen. by eapply lookup_lt_Some. }
              pose proof (Hws _ _ _ Ht Hw) as Hok.
              rewrite (Hdone _ _ Hw) in Hok. by destruct Hok.
      * intros k t Ht.
           destruct (lookup_lt_is_Some_2 (pWorkers s) k) as [w Hw].
           { rewrite Hlen. by eapply lookup_lt_Some. }
           pose proof (Hws _ _ _ Ht Hw) as Hok.
           rewrite (Hdone _ _ Hw) in Hok. by destruct Hok.
Qed.

Lemma pInv_run evs s s' : pInv s → prun evs s = Some s' → pInv s'.
Proof.
  revert s. induction evs as [|e evs IH]; intros s Hinv Hrun; simpl in Hrun.
  - by simplify_eq.
  - destruct (pstep e s) as [s1|] eqn:Hstep; [|done].
    eapply IH; [|done]. by eapply pInv_step.
Qed.




Lemma pMeasure_step e s s' :
  pstep e s = Some s' → pMeasure s' < pMeasure s.
Proof.
  unfold pMeasure, pstep. destruct (pOutcome s) eqn:Ho; [done|].
  destruct e as [k|k|k img|k err|k| |]; intros Hstep.
  - destruct (pWorkers s !! k) as [[]|] eqn:Hw; try done.
    destruct (semTryAcquire (pSem s)); [|done]. simplify_eq. simpl.
    pose proof (weight_insert pWeight _ _ _ PFetch Hw). simpl in *. lia.
  - destruct (pWorkers s !! k) as [[]|] eqn:Hw; try done.
    destruct (pCtxDone s); [|done]. simplify_eq. simpl.
    pose proof (weight_insert pWeight _ _ _ PAbandoned Hw). simpl in *. lia.
  - destruct (pWorkers s !! k) as [[]|] eqn:Hw; try done.
    destruct (pTodo s !! k); [|done]. simplify_eq. simpl.
    pose proof (weight_insert pWeight _ _ _ (PSend k) Hw). simpl in *. lia.
  - destruct (pWorkers s !! k) as [[]|] eqn:Hw; try done.
    destruct (pTodo s !! k); [|done]. simplify_eq. simpl.
    match goal with |- context [<[_ := ?w]> _] =>
      pose proof (weight_insert pWeight _ _ _ w Hw) end.
    simpl in *. destruct (pCtxDone s); lia.
  - destruct (pWorkers s !! k) as [[]|] eqn:Hw; try done.
    destruct (pTodo s !! k); [|done]. unfold chanSend in Hstep.
    destruct (chanClosed (pCh s)); [done|]. case_decide; [|done].
    simplify_eq. simpl.
    pose proof (weight_insert pWeight _ _ _ PDone Hw). simpl in *. lia.
  - destruct (pCtxDone s); [done|]. simplify_eq. simpl. lia.
  - destruct (pAllReturned (pWorkers s)); [|done].
    destruct (pErr s).
    + simplify_eq. simpl. destruct (pCtxDone s); lia.
    + unfold chanClose in Hstep. destruct (chanClosed (pCh s)); [done|].
      simpl in Hstep. simplify_eq. simpl. destruct (pCtxDone s); lia.
Qed.

Lemma pMeasure_run evs s s' :
  prun evs s = Some s' → length evs + pMeasure s' ≤ pMeasure s.
Proof.
  revert s. induction evs as [|e evs IH]; intros s Hrun; simpl in Hrun.
  - simplify_eq. simpl. lia.
  - destruct (pstep e s) as [s1|] eqn:Hstep; [|done].
    apply IH in Hrun. apply pMeasure_step in Hstep. simpl. lia.
Qed.

Lemma pSend_enabled s k img :
  pInv s → pOutcome s = None → pWorkers s !! k = Some (PSend img) →
  is_Some (pstep (PEvSend k) s).
Proof.
  intros Hinv Ho Hw. pose proof (pinv_out _ Hinv) as Hrun.
  rewrite Ho in Hrun. destruct Hrun as [Hcap Hopen Hnd Hbuf Hws Hnone].
  destruct (lookup_lt_is_Some_2 (pTodo s) k) as [t Ht].
  { rewrite <- (pinv_len _ Hinv). by eapply lookup_lt_Some. }
  destruct (Hws _ _ _ Ht Hw) as (-> & Hnew & _).
  unfold pstep. rewrite Ho, Hw, Ht. unfold chanSend. rewrite Hopen.
  rewrite decide_True; [done|].
  assert (Some k :: (resImage <$> chanBuf (pCh s))
          ⊆+ Some <$> seq 0 (length (pTodo s))) as Hsub.
  { apply NoDup_submseteq; [by constructor|].
    intros q Hq. apply list_elem_of_fmap.
    assert (∃ k', q = Some k' ∧ k' < length (pTodo s)) as (k' & -> & Hk').
    { apply elem_of_cons in Hq as [->|Hq].
      - exists k. split; [done|]. by eapply lookup_lt_Some.
      - apply list_elem_of_fmap in Hq as (r & -> & Hr).
        apply Hbuf in Hr as (k' & t' & Hk' & ->). exists k'.
        split; [done|]. by eapply lookup_lt_Some. }
    exists k'. split; [done|]. apply elem_of_seq. lia. }
  apply submseteq_length in Hsub. simpl in Hsub.
  rewrite !length_fmap, length_seq in Hsub. lia.
Qed.

Lemma pProgress s :
  pInv s → pOutcome s = None →
  ∃ e, pInternal e = true ∧ is_Some (pstep e s).
Proof.
  intros Hinv Ho. pose proof (pinv_out _ Hinv) as Hrun.
  rewrite Ho in Hrun. destruct Hrun as [Hcap Hopen Hnd Hbuf Hws Hnone].
  assert (Hheld : ∀ k w, pWorkers s !! k = Some w → pHolding w = true →
            ∃ e, pInternal e = true ∧ is_Some (pstep e s)).
  { intros k w Hw Hh. destruct w; try done.
    - destruct (lookup_lt_is_Some_2 (pTodo s) k) as [t Ht].
      { rewrite <- (pinv_len _ Hinv). by eapply lookup_lt_Some. }
      exists (PEvFetchErr k ""). split; [done|]. unfold pstep.
      by rewrite Ho, Hw, Ht.
    - exists (PEvSend k). split; [done|]. by eapply pSend_enabled. }
  destruct (pAllReturned (pWorkers s)) eqn:Hall.
  - exists PEvWait. split; [done|]. unfold pstep. rewrite Ho, Hall.
    destruct (pErr s); [done|]. unfold chanClose. by rewrite Hopen.
  - apply forallb_false_lookup in Hall as (k & w & Hw & Hret).
    destruct (pHolding w) eqn:Hh; [by eapply Hheld|].
    destruct w; try done.
    destruct (semTryAcquire (pSem s)) as [cur'|] eqn:Hs.
    + exists (PEvAcquire k). split; [done|]. unfold pstep.
      by rewrite Ho, Hw, Hs.
    + unfold semTryAcquire in Hs. case_decide as Hlt; [done|].
      destruct (count_pos_lookup pHolding (pWorkers s)) as (k' & w' & ? & ?).
      { pose proof (pinv_sem _ Hinv) as Hsem. unfold pInFlight in Hsem.
        unfold maxPreloadWorkersNum in *. lia. }
      by eapply Hheld.
Qed.



Section PreloadClaims.

Variable descriptionImageFromMarkdown : string.

Variables (slides : list slidesPage) (ctxDone : bool).

Variable actions : list action.

(** C2.  Every execution of [preloadCurrentImages] is bounded and can go
    on until the call returns.  It returns either a snapshot and no error,
    or an error and no snapshot; when a fetch has failed it returns an
    error and no snapshot, and a missing snapshot always comes with a
    worker that failed or was never admitted. *)
Theorem preload_is_all_or_nothing s0 evs s :
  preloadCurrentImages descriptionImageFromMarkdown slides ctxDone actions
  = Some s0 →
  prun evs s0 = Some s →
  length evs + pMeasure s ≤ pMeasure s0
  ∧ (pOutcome s = None → ∃ e, pInternal e = true ∧ is_Some (pstep e s))
  ∧ ∀ res err, pOutcome s = Some (res, err) →
      (res = None ↔ is_Some err)
      ∧ ((∃ k e, pWorkers s !! k = Some (PFailed e)) →
         res = None ∧ is_Some err)
      ∧ (res = None → ∃ k w, pWorkers s !! k = Some w
                             ∧ pFailedWorker w = true).
Proof.
  intros Hstart Hrun.
  pose proof (pInv_run _ _ _ (pInv_start _ _ _ _ _ Hstart) Hrun) as Hinv.
  split_and!.
  - by apply pMeasure_run.
  - by apply pProgress.
  - intros res err Ho. pose proof (pinv_out _ Hinv) as Hfin.
    rewrite Ho in Hfin. destruct Hfin as [Hall [Hfail|Hok]].
    + destruct Hfail as (e & He & [= -> ->] & Hw).
      split_and!; eauto. split; eauto.
    + destruct Hok as (rs & [= -> ->] & _ & Hdone & _).
      split_and!.
      * split; [done|by intros [? ?]].
      * intros (k & e & Hw). by apply Hdone in Hw.
      * done.
Qed.


End PreloadClaims.

Lemma cRunning_done ts k info :
  ts !! k = Some (CDeleting info) →
  cRunning ts ≡ₚ info :: cRunning (<[k := CDone]> ts).
Proof.
  revert k. induction ts as [|t ts IH]; intros [|k] Hk; simplify_eq/=.
  - done.
  - unfold cRunning in *. simpl. destruct t; simpl.
    + rewrite (IH _ Hk). apply Permutation_swap.
    + by apply IH.
Qed.

Lemma cRunning_all_done ts : cAllDone ts = true → cRunning ts = [].
Proof.
  induction ts as [|t ts IH]; simpl; [done|].
  destruct t; simpl; [done|]. intros Hts. unfold cRunning in *. simpl. auto.
Qed.

Lemma cRunning_snoc ts info :
  cRunning (ts ++ [CDeleting info]) = cRunning ts ++ [info].
Proof. unfold cRunning. by rewrite omap_app. Qed.

Lemma cInFlight_snoc ts info :
  length (filter (λ t, cHolding t = true) (ts ++ [CDeleting info]))
  = S (length (filter (λ t, cHolding t = true) ts)).
Proof. rewrite filter_app, length_app. simpl. lia. Qed.

Lemma cInv_start ctxDone events :
  cInv events (cleanupUploadedImages ctxDone events).
Proof.
  split; simpl; try done.
  - unfold maxPreloadWorkersNum. lia.
  - unfold cAccounted. simpl. done.
Qed.

Ltac cinv_arith :=
  unfold cInFlight, semRelease, maxPreloadWorkersNum in *; simpl in *;
  try done; lia.

Lemma cInv_step events e s s' :
  cInv events s → cstep e s = Some s' → cInv events s'.
Proof.
  intros [Hsem Hle Hacc Hwait Hret] Hstep. unfold cAccounted in *.
  destruct e as [| | | | |k err| |]; simpl in Hstep.
  - destruct (cLoop s) eqn:Hl; try done.
    destruct (cIncoming s) as [|info rest] eqn:Hi; [done|]. simplify_eq.
    split; [cinv_arith|cinv_arith| |done|done].
    unfold cAccounted. simpl in *. by rewrite <- Hacc.
  - destruct (cLoop s) eqn:Hl; try done.
    destruct (cIncoming s) as [|info rest] eqn:Hi; [|done]. simplify_eq.
    split; [cinv_arith|cinv_arith| |done|done].
    unfold cAccounted. simpl in *. by rewrite <- Hacc.
  - destruct (cLoop s) eqn:Hl; try done.
    destruct (cCtxDone s); [|done]. simplify_eq.
    split; [cinv_arith|cinv_arith|done|done|done].
  - destruct (cLoop s) eqn:Hl; try done.
    unfold semTryAcquire in Hstep. case_decide as Hlt; [|done]. simplify_eq.
    split; [|cinv_arith| |done|done].
    + unfold cInFlight in *. simpl. rewrite cInFlight_snoc. by rewrite Hsem.
    + unfold cAccounted. simpl in *. rewrite cRunning_snoc, fmap_app.
      rewrite <- Hacc. simpl. by rewrite <- !app_assoc.
  - destruct (cLoop s) eqn:Hl; try done.
    destruct (cCtxDone s); [|done]. simplify_eq.
    split; [cinv_arith|cinv_arith|done|done|done].
  - destruct (cTasks s !! k) as [[info|]|] eqn:Hk; try done. simplify_eq.
    pose proof (count_insert cHolding _ _ _ CDone Hk) as Hc.
    cbn [cHolding] in Hc.
    split; [cinv_arith|cinv_arith| |done|].
    + simpl. destruct (cLoop s) as [| | |[]]; try done.
      all: unfold cAccounted; simpl; rewrite <- Hacc;
        rewrite (cRunning_done _ _ _ Hk); simpl;
        rewrite <- !app_assoc; simpl; done.
    + simpl. intros Hl. destruct (Hret Hl) as [? Hall]. split; [done|].
      unfold cAllDone in *. by apply forallb_insert.
  - destruct (cLoop s) eqn:Hl; try done.
    destruct (cAllDone (cTasks s)) eqn:Hall; [|done]. simplify_eq.
    split; [cinv_arith|cinv_arith| |done|].
    + unfold cAccounted. simpl in *. by rewrite <- Hacc.
    + simpl. intros _. split; [auto|done].
  - destruct (cCtxDone s); [done|]. simplify_eq.
    split; [cinv_arith|cinv_arith|done|done|done].
Qed.

Lemma cInv_run events evs s s' :
  cInv events s → crun evs s = Some s' → cInv events s'.
Proof.
  revert s. induction evs as [|e evs IH]; intros s Hinv Hrun; simpl in Hrun.
  - by simplify_eq.
  - destruct (cstep e s) as [s1|] eqn:Hstep; [|done].
    eapply IH; [|done]. by eapply cInv_step.
Qed.

Lemma cLive_step e s s' :
  cNoCancel e = true → cLive s → cstep e s = Some s' → cLive s'.
Proof.
  intros Hnc [Hctx Hloop] Hstep.
  destruct e; simpl in Hstep; try done;
    repeat case_match; simplify_eq; split; simpl; try done; congruence.
Qed.

Lemma cLive_run evs s s' :
  forallb cNoCancel evs = true → cLive s → crun evs s = Some s' → cLive s'.
Proof.
  revert s. induction evs as [|e evs IH]; intros s Hnc Hl Hrun;
    simpl in Hrun, Hnc.
  - by simplify_eq.
  - apply andb_true_iff in Hnc as [He Hevs].
    destruct (cstep e s) as [s1|] eqn:Hstep; [|done].
    eapply IH; [done| |done]. by eapply cLive_step.
Qed.

Lemma cMeasure_step e s s' :
  cstep e s = Some s' → cMeasure s' < cMeasure s.
Proof.
  unfold cMeasure. destruct e as [| | | | |k err| |]; simpl; intros Hstep.
  - destruct (cLoop s); try done. destruct (cIncoming s); [done|].
    simplify_eq. simpl. lia.
  - destruct (cLoop s); try done. destruct (cIncoming s); [|done].
    simplify_eq. simpl. lia.
  - destruct (cLoop s); try done. destruct (cCtxDone s); [|done].
    simplify_eq. simpl. lia.
  - destruct (cLoop s); try done.
    destruct (semTryAcquire (cSem s)); [|done]. simplify_eq. simpl.
    rewrite cInFlight_snoc. lia.
  - destruct (cLoop s); try done. destruct (cCtxDone s); [|done].
    simplify_eq. simpl. lia.
  - destruct (cTasks s !! k) as [[info|]|] eqn:Hk; try done. simplify_eq.
    simpl. pose proof (count_insert cHolding _ _ _ CDone Hk) as Hc.
    cbn [cHolding] in Hc. lia.
  - destruct (cLoop s); try done. destruct (cAllDone (cTasks s)); [|done].
    simplify_eq. simpl. lia.
  - destruct (cCtxDone s); [done|]. simplify_eq. simpl. lia.
Qed.

Lemma cMeasure_run evs s s' :
  crun evs s = Some s' → length evs + cMeasure s' ≤ cMeasure s.
Proof.
  revert s. induction evs as [|e evs IH]; intros s Hrun; simpl in Hrun.
  - simplify_eq. simpl. lia.
  - destruct (cstep e s) as [s1|] eqn:Hstep; [|done].
    apply IH in Hrun. apply cMeasure_step in Hstep. simpl. lia.
Qed.

Lemma cHolding_deleting t : cHolding t = true → ∃ info, t = CDeleting info.
Proof. destruct t; [eauto|done]. Qed.

Lemma cProgress events s :
  cInv events s → (∀ e, cLoop s ≠ CReturned e) →
  ∃ e, cNoCancel e = true ∧ is_Some (cstep e s).
Proof.
  intros Hinv Hloop.
  assert (Hdel : ∀ k t, cTasks s !! k = Some t → cHolding t = true →
            ∃ e, cNoCancel e = true ∧ is_Some (cstep e s)).
  { intros k t Hk [info ->]%cHolding_deleting.
    exists (CEvDelete k None). split; [done|]. simpl. by rewrite Hk. }
  destruct (cLoop s) as [|info| |e] eqn:Hl.
  - destruct (cIncoming s) as [|info rest] eqn:Hi.
    + exists CEvRecvClosed. split; [done|]. simpl. by rewrite Hl, Hi.
    + exists CEvRecv. split; [done|]. simpl. by rewrite Hl, Hi.
  - destruct (semTryAcquire (cSem s)) as [cur'|] eqn:Hs.
    + exists CEvAcquire. split; [done|]. simpl. by rewrite Hl, Hs.
    + unfold semTryAcquire in Hs. case_decide as Hlt; [done|].
      destruct (count_pos_lookup cHolding (cTasks s)) as (k & t & ? & ?).
      { pose proof (cinv_sem _ _ Hinv) as Hsem. unfold cInFlight in Hsem.
        unfold maxPreloadWorkersNum in *. lia. }
      by eapply Hdel.
  - destruct (cAllDone (cTasks s)) eqn:Hall.
    + exists CEvWaitDone. split; [done|]. simpl. by rewrite Hl, Hall.
    + apply forallb_false_lookup in Hall as (k & t & Hk & Ht).
      eapply Hdel; [done|]. by destruct t.
  - by destruct (Hloop e).
Qed.

(** C6.  Without a cancellation, every execution of
    [cleanupUploadedImages] is bounded and can go on until the call
    returns, whatever the deletions return (a deletion may fail at any
    time); when it returns, it returns nil, the stream is drained, every
    deletion goroutine has ended, and the backend delete was called once
    for every event of the stream. *)
Theorem cleanup_attempts_every_delete events evs s :
  forallb cNoCancel evs = true →
  crun evs (cleanupUploadedImages false events) = Some s →
  length evs + cMeasure s ≤ cMeasure (cleanupUploadedImages false events)
  ∧ ((∀ err, cLoop s ≠ CReturned err) →
     ∃ e, cNoCancel e = true ∧ is_Some (cstep e s))
  ∧ (∀ k info err, cTasks s !! k = Some (CDeleting info) →
       is_Some (cstep (CEvDelete k err) s))
  ∧ (∀ err, cLoop s = CReturned err →
       err = None
       ∧ cIncoming s = []
       ∧ cAllDone (cTasks s) = true
       ∧ cDeleteCalls s ≡ₚ resourceID <$> events).
Proof.
  intros Hnc Hrun.
  pose proof (cInv_run _ _ _ _ (cInv_start false events) Hrun) as Hinv.
  assert (Hlive : cLive s).
  { eapply cLive_run; [done| |done]. by split. }
  split_and!.
  - by apply cMeasure_run.
  - by eapply cProgress.
  - intros k info err Hk. simpl. by rewrite Hk.
  - intros err Hl. destruct Hlive as [_ Hne].
    destruct err as [e|]; [by destruct (Hne e)|].
    destruct (cinv_ret _ _ Hinv Hl) as [Hi Hall].
    split_and!; try done.
    pose proof (cinv_acc _ _ Hinv) as Hacc. rewrite Hl in Hacc.
    unfold cAccounted in Hacc.
    rewrite Hl, Hi, (cRunning_all_done _ Hall) in Hacc. simpl in Hacc.
    by rewrite app_nil_r in Hacc.
Qed.

(** ** The admission limit in the three stages *)

(** C9.  The limit is 4, and in every state of every execution of the
    preload, upload and cleanup stages the number of goroutines that hold
    a permit of the stage's semaphore equals the number of permits out and
    is at most the limit. *)
Theorem in_flight_never_exceeds_limit :
  maxPreloadWorkersNum = 4
  ∧ (∀ descr slides ctxDone actions s0 evs s,
       preloadCurrentImages descr slides ctxDone actions = Some s0 →
       prun evs s0 = Some s →
       pInFlight s = pSem s ∧ pInFlight s ≤ maxPreloadWorkersNum)
  ∧ (∀ Equivalent ctxDone h actions cur evs s,
       urun evs (startUploadingImages Equivalent ctxDone h actions cur)
       = Some s →
       uInFlight s = uSem s ∧ uInFlight s ≤ maxPreloadWorkersNum)
  ∧ (∀ ctxDone events evs s,
       crun evs (cleanupUploadedImages ctxDone events) = Some s →
       cInFlight s = cSem s ∧ cInFlight s ≤ maxPreloadWorkersNum).
Proof.
  split_and!; [done|..].
  - intros descr slides ctxDone actions s0 evs s Hstart Hrun.
    pose proof (pInv_run _ _ _ (pInv_start _ _ _ _ _ Hstart) Hrun)
      as Hinv.
    rewrite <- (pinv_sem _ Hinv). split; [done|apply (pinv_sem_le _ Hinv)].
  - intros Equivalent ctxDone h actions cur evs s Hrun.
    pose proof (uInv_reach _ _ _ _ _ _ _ Hrun) as Hinv.
    rewrite <- (inv_sem _ Hinv). split; [done|apply (inv_sem_le _ Hinv)].
  - intros ctxDone events evs s Hrun.
    pose proof (cInv_run _ _ _ _ (cInv_start ctxDone events) Hrun) as Hinv.
    rewrite <- (cinv_sem _ _ Hinv). split; [done|apply (cinv_sem_le _ _ Hinv)].
Qed.

(** C1, as stated, fails: two image objects with the same bytes and MIME
    type on two slides are both selected, both uploaded and both
    published. *)
Lemma content_equivalent_copies_uploaded_twice :
  contentEquivalent twoCopies (Some 0) 1 = true
  ∧ imagesToUpload contentEquivalent twoCopies twoSlides ∅ = [0; 1]
  ∧ urun uploadBoth twoSlidesStart = Some uploadBothEnd
  ∧ uUploadCalls uploadBothEnd
    = [mkCall 0 (inl ("u0", "r0")); mkCall 1 (inl ("u1", "r1"))]
  ∧ uPublished uploadBothEnd = [mkInfo "r0" 0; mkInfo "r1" 1]
  ∧ ¬ uploadsEachContentOnce.
Proof.
  split_and!; try (vm_compute; reflexivity).
  intros Hclaim.
  destruct (Hclaim twoCopies twoSlides ∅ uploadBoth uploadBothEnd)
    as [Hcalls _]; [vm_compute; reflexivity|].
  specialize (Hcalls 0 1 _ _ eq_refl eq_refl). simpl in Hcalls.
  discriminate Hcalls. vm_compute. reflexivity.
Qed.


(** The theorem [each_image_object_uploaded_at_most_once] at a concrete batch and schedule. *)
Lemma each_image_object_uploaded_at_most_once_witness :
  urun uploadBoth twoSlidesStart = Some uploadBothEnd
  ∧ NoDup (imagesToUpload contentEquivalent twoCopies twoSlides ∅)
  ∧ ∀ p, length (uploadsOf p uploadBothEnd) ≤ 1
         ∧ length (eventsFor p uploadBothEnd) ≤ 1.
Proof.
  assert (Hrun : urun uploadBoth twoSlidesStart = Some uploadBothEnd)
    by (vm_compute; reflexivity).
  split; [exact Hrun|].
  destruct (each_image_object_uploaded_at_most_once contentEquivalent false
              twoCopies twoSlides ∅ uploadBoth uploadBothEnd Hrun)
    as (Hnd & _ & _ & Hone).
  split; [exact Hnd|exact Hone].
Defined.

(** The theorem [event_iff_upload_succeeded] at a concrete batch and schedule. *)
Lemma event_iff_upload_succeeded_witness :
  urun uploadFails twoSlidesStart = Some uploadFailsEnd
  ∧ 0 ∈ imagesToUpload contentEquivalent twoCopies twoSlides ∅
  ∧ eventsFor 0 uploadFailsEnd = []
  ∧ imageIs (uHeap uploadFailsEnd) 0 Failed ""
      (Some ("failed to upload image: " +:+ "boom")).
Proof.
  assert (Hrun : urun uploadFails twoSlidesStart = Some uploadFailsEnd)
    by (vm_compute; reflexivity).
  assert (Hsel : 0 ∈ imagesToUpload contentEquivalent twoCopies twoSlides ∅)
    by (vm_compute; left).
  split; [exact Hrun|]. split; [exact Hsel|].
  destruct (event_iff_upload_succeeded contentEquivalent false twoCopies
              twoSlides ∅ uploadFails uploadFailsEnd 0 Hrun Hsel)
    as (_ & _ & _ & Hfail).
  apply (Hfail "boom"). vm_compute. left.
Defined.

(** The theorem [close_only_after_every_upload_attempted] at a concrete batch and schedule. *)
Lemma close_only_after_every_upload_attempted_witness :
  urun uploadFails twoSlidesStart = Some uploadFailsEnd
  ∧ chanClosed (uCh uploadFailsEnd) = true
  ∧ terminal (uHeap uploadFailsEnd) 0 = true
  ∧ terminal (uHeap uploadFailsEnd) 1 = true.
Proof.
  assert (Hrun : urun uploadFails twoSlidesStart = Some uploadFailsEnd)
    by (vm_compute; reflexivity).
  assert (Hcl : chanClosed (uCh uploadFailsEnd) = true) by reflexivity.
  split; [exact Hrun|]. split; [exact Hcl|].
  destruct (close_only_after_every_upload_attempted contentEquivalent false
              twoCopies twoSlides ∅ uploadFails uploadFailsEnd Hrun Hcl)
    as (Hterm & _).
  split.
  - apply (Hterm 0 0). vm_compute. reflexivity.
  - apply (Hterm 1 1). vm_compute. reflexivity.
Defined.

(** The theorem [claimed_before_any_task_starts] at a concrete batch and schedule. *)
Lemma claimed_before_any_task_starts_witness :
  urun uploadBoth twoSlidesStart = Some uploadBothEnd
  ∧ 1 ∈ imagesToUpload contentEquivalent twoCopies twoSlides ∅
  ∧ stateOf (uHeap twoSlidesStart) 1 = Some Uploading
  ∧ IsUploadNeeded (uHeap uploadBothEnd) 1 = false.
Proof.
  assert (Hrun : urun uploadBoth twoSlidesStart = Some uploadBothEnd)
    by (vm_compute; reflexivity).
  assert (Hsel : 1 ∈ imagesToUpload contentEquivalent twoCopies twoSlides ∅)
    by (vm_compute; right; left).
  split; [exact Hrun|]. split; [exact Hsel|].
  destruct (claimed_before_any_task_starts contentEquivalent false twoCopies
              twoSlides ∅) as (Hclaimed & _ & _ & _ & _ & Hlater).
  split.
  - apply (Hclaimed 1 Hsel).
  - apply (Hlater uploadBoth uploadBothEnd 1 Hrun Hsel).
Defined.

(** The theorem [empty_selection_returns_closed_stream] at a concrete batch and schedule. *)
Lemma empty_selection_returns_closed_stream_witness :
  imagesToUpload contentEquivalent twoCopies noSlides ∅ = []
  ∧ chanRecv (uCh (startUploadingImages contentEquivalent false twoCopies
                     noSlides ∅)) = RecvClosed
  ∧ uBg (startUploadingImages contentEquivalent false twoCopies noSlides ∅)
    = BgNone.
Proof.
  assert (Hsel : imagesToUpload contentEquivalent twoCopies noSlides ∅ = [])
    by (vm_compute; reflexivity).
  split; [exact Hsel|].
  destruct (empty_selection_returns_closed_stream contentEquivalent false
              twoCopies noSlides ∅ Hsel) as (_ & _ & Hrecv & _ & Hbg & _).
  split; [exact Hrecv|exact Hbg].
Defined.

(** The theorem [buffered_stream_never_blocks] at a concrete batch and schedule. *)
Lemma buffered_stream_never_blocks_witness :
  urun uploadFirst twoSlidesStart = Some uploadFirstEnd
  ∧ uWorkers uploadFirstEnd !! 0 = Some (UPublish "u0" "r0")
  ∧ is_Some (ustep (UEvSend 0) uploadFirstEnd).
Proof.
  assert (Hrun : urun uploadFirst twoSlidesStart = Some uploadFirstEnd)
    by (vm_compute; reflexivity).
  assert (Hw : uWorkers uploadFirstEnd !! 0 = Some (UPublish "u0" "r0"))
    by reflexivity.
  split; [exact Hrun|]. split; [exact Hw|].
  destruct (buffered_stream_never_blocks contentEquivalent false twoCopies
              twoSlides ∅ uploadFirst uploadFirstEnd Hrun)
    as (_ & _ & Hsend & _).
  apply (Hsend 0 "u0" "r0" Hw).
Defined.

(** The theorem [preload_is_all_or_nothing] at a concrete batch and schedule. *)
Lemma preload_is_all_or_nothing_witness :
  preloadCurrentImages "md" oneImageSlide false updateOnce
  = Some updateOnceStart
  ∧ prun fetchOneFails updateOnceStart = Some fetchOneFailsEnd
  ∧ pOutcome fetchOneFailsEnd
    = Some (None,
            Some "failed to preload images: failed to preload image from URL https://x/y.png: 404")
  ∧ (None : option (gmap Z currentImageData)) = None.
Proof.
  assert (Hstart : preloadCurrentImages "md" oneImageSlide false updateOnce
                   = Some updateOnceStart) by (vm_compute; reflexivity).
  assert (Hrun : prun fetchOneFails updateOnceStart = Some fetchOneFailsEnd)
    by (vm_compute; reflexivity).
  assert (Hout : pOutcome fetchOneFailsEnd
    = Some (None,
            Some "failed to preload images: failed to preload image from URL https://x/y.png: 404"))
    by (vm_compute; reflexivity).
  split; [exact Hstart|]. split; [exact Hrun|]. split; [exact Hout|].
  destruct (preload_is_all_or_nothing "md" oneImageSlide false updateOnce
              updateOnceStart fetchOneFails fetchOneFailsEnd Hstart Hrun)
    as (_ & _ & Hres).
  destruct (Hres _ _ Hout) as (_ & Hfail & _).
  apply Hfail. exists 0. eexists. vm_compute. reflexivity.
Defined.


(** The theorem [cleanup_attempts_every_delete] at a concrete batch and schedule. *)
Lemma cleanup_attempts_every_delete_witness :
  forallb cNoCancel sweepThree = true
  ∧ crun sweepThree (cleanupUploadedImages false threeEvents)
    = Some sweepThreeEnd
  ∧ cLoop sweepThreeEnd = CReturned None
  ∧ cDeleteCalls sweepThreeEnd ≡ₚ resourceID <$> threeEvents.
Proof.
  assert (Hnc : forallb cNoCancel sweepThree = true) by reflexivity.
  assert (Hrun : crun sweepThree (cleanupUploadedImages false threeEvents)
                 = Some sweepThreeEnd) by (vm_compute; reflexivity).
  assert (Hret : cLoop sweepThreeEnd = CReturned None) by reflexivity.
  split; [exact Hnc|]. split; [exact Hrun|]. split; [exact Hret|].
  destruct (cleanup_attempts_every_delete threeEvents sweepThree
              sweepThreeEnd Hnc Hrun) as (_ & _ & _ & Hfin).
  apply (Hfin None Hret).
Defined.

(** The theorem [in_flight_never_exceeds_limit] at a concrete batch and schedule. *)
Lemma in_flight_never_exceeds_limit_witness :
  urun uploadBoth twoSlidesStart = Some uploadBothEnd
  ∧ uInFlight uploadBothEnd ≤ maxPreloadWorkersNum.
Proof.
  assert (Hrun : urun uploadBoth twoSlidesStart = Some uploadBothEnd)
    by (vm_compute; reflexivity).
  split; [exact Hrun|].
  destruct in_flight_never_exceeds_limit as (_ & _ & Hup & _).
  apply (Hup contentEquivalent false twoCopies twoSlides ∅ uploadBoth
             uploadBothEnd Hrun).
Defined.
